(** * FileSharingApp: the data models, the navigation state, the drive manager
    and the background batch operations of the Google Drive front end.

  Python values are embedded as follows: [str] as [string], [int] as [Z]
  (counters that only count up from zero as [nat]), [float] percentages as
  exact rationals [Q], a raised exception as the [Raise] result carrying the
  exception's message. *)

From Stdlib Require Import Ascii String ZArith QArith Lia.
From stdpp Require Import base option list sorting strings gmap pretty.

Local Open Scope string_scope.
Local Open Scope list_scope.
Local Open Scope nat_scope.

(** ** Results of fallible code *)

Inductive Result (A : Type) : Type :=
| Ok (a : A)
| Raise (exc : string).
Arguments Ok {A} a.
Arguments Raise {A} exc.

Definition raises {A} (r : Result A) : bool :=
match r with Ok _ => false | Raise _ => true end.

(** Python truthiness of a [str]: only the empty string is falsy. *)
Definition truthy (s : string) : bool :=
match s with EmptyString => false | String _ _ => true end.

(** ** models/data_models.py *)

Module DataModels.

Record FileItem := mkFileItem {
  id : string;
  title : string;
  size : Z;
  modified_date : string;
  mime_type : string;
  is_folder : bool;
  parent_id : string
}.

(** Defaults of the trailing dataclass fields. *)
Definition default_is_folder : bool := false.
Definition default_parent_id : string := "root".

(** [FileItem(...)]: the generated [__init__] stores the seven fields and
    then runs [__post_init__], the only code that can raise. *)
Definition post_init (self : FileItem) : Result FileItem :=
  if negb (truthy (id self)) then Raise "File ID cannot be empty"
  else if negb (truthy (title self)) then Raise "File title cannot be empty"
  else Ok self.

Definition new_FileItem (id title : string) (size : Z)
    (modified_date mime_type : string) (is_folder : bool)
    (parent_id : string) : Result FileItem :=
  post_init (mkFileItem id title size modified_date mime_type is_folder parent_id).

Record UploadProgress := mkUploadProgress {
  current_file : string;
  completed : Z;
  total : Z;
  status : string
}.

(** [UploadProgress.percentage]; the float quotient is kept exact. *)
Definition up_percentage (self : UploadProgress) : Q :=
  if (total self =? 0)%Z then 0%Q
  else (inject_Z (completed self) / inject_Z (total self) * 100)%Q.

(** A history entry is the tuple [(folder_id, folder_name)]; the Python
    list grows and shrinks at its end. *)
Record NavigationState := mkNav {
  current_folder_id : string;
  current_folder_name : string;
  history : list (string * string)
}.

(** [NavigationState(...)]: [__post_init__] replaces a [None] history by an
    empty list. *)
Definition new_NavigationState (current_folder_id current_folder_name : string)
    (history : option (list (string * string))) : NavigationState :=
  mkNav current_folder_id current_folder_name (default [] history).

End DataModels.

(** ** utils/helpers.py : ProgressTracker *)

Module Helpers.

(** [start_time] is a wall-clock reading and is left out. *)
Record ProgressTracker := mkTracker {
  total_items : Z;
  completed_items : Z;
  current_item : string;
  errors : list string
}.

Definition init (total_items : Z) : ProgressTracker :=
  mkTracker total_items 0 "" [].

Definition update (completed : Z) (current_item : string)
    (self : ProgressTracker) : ProgressTracker :=
  mkTracker (total_items self) completed current_item (errors self).

Definition add_error (error : string) (self : ProgressTracker) : ProgressTracker :=
  mkTracker (total_items self) (completed_items self) (current_item self)
            (errors self ++ [error]).

Definition percentage (self : ProgressTracker) : Q :=
  if (total_items self =? 0)%Z then 0%Q
  else (inject_Z (completed_items self) / inject_Z (total_items self) * 100)%Q.

(** The operations a caller can apply to a tracker after construction. *)
Inductive Op :=
| OpUpdate (completed : Z) (current_item : string)
| OpAddError (error : string).

Definition apply_op (self : ProgressTracker) (o : Op) : ProgressTracker :=
  match o with
  | OpUpdate c it => update c it self
  | OpAddError e => add_error e self
  end.

Definition run_ops (total_items : Z) (ops : list Op) : ProgressTracker :=
  foldl apply_op (init total_items) ops.

(** The value passed by the last [update], zero when there was none. *)
Definition last_update (ops : list Op) : Z :=
  foldl (fun acc o => match o with OpUpdate c _ => c | OpAddError _ => acc end) 0%Z ops.

Definition update_bounded (total_items : Z) (o : Op) : Prop :=
  match o with
  | OpUpdate c _ => (c <= total_items)%Z
  | OpAddError _ => True
  end.

End Helpers.

(** ** Navigation (gui/main_window.py) *)

Module Navigation.
Import DataModels.

(** The state built by [GoogleDriveSyncApp.__init__]. *)
Definition initial : NavigationState := new_NavigationState "root" "Root" (Some []).

(** Each handler returns the new state and whether it went on to call
    [_refresh_files] (which starts a listing thread and leaves the
    navigation state alone). *)
Definition navigate_to_folder (folder_id folder_name : string)
    (nav : NavigationState) : NavigationState * bool :=
  let h := history nav ++ [(current_folder_id nav, current_folder_name nav)] in
  (mkNav folder_id folder_name h, true).

(** [list.pop()] on a non-empty list: the last element and the rest. *)
Definition pop {A} (l : list A) : option (A * list A) :=
  match reverse l with
  | [] => None
  | x :: r => Some (x, reverse r)
  end.

Definition go_back (nav : NavigationState) : NavigationState * bool :=
  match pop (history nav) with
  | None => (nav, false)
  | Some ((folder_id, folder_name), h) => (mkNav folder_id folder_name h, true)
  end.

Definition go_home (nav : NavigationState) : NavigationState * bool :=
  (mkNav "root" "Root" [], true).

End Navigation.


(** ** Python path helpers (POSIX flavour of [os.path]) *)

Module Path.

Definition slash : ascii := "/"%char.

Fixpoint has_slash (s : string) : bool :=
  match s with
  | EmptyString => false
  | String c r => if Ascii.eqb c slash then true else has_slash r
  end.

(** [os.path.basename]: what follows the last slash. *)
Fixpoint basename (s : string) : string :=
  match s with
  | EmptyString => EmptyString
  | String c r =>
      if has_slash r then basename r
      else if Ascii.eqb c slash then r else s
  end.

Fixpoint ends_with_slash (s : string) : bool :=
  match s with
  | EmptyString => false
  | String c EmptyString => Ascii.eqb c slash
  | String _ r => ends_with_slash r
  end.

(** [os.path.join a b]. *)
Definition join (a b : string) : string :=
  match b with
  | String c _ =>
      if Ascii.eqb c slash then b
      else if negb (truthy a) || ends_with_slash a then a +:+ b
      else a +:+ "/" +:+ b
  | EmptyString =>
      if negb (truthy a) || ends_with_slash a then a else a +:+ "/"
  end.

(** A path relative to the uploaded folder is kept as the list of its
    components: [[]] stands for ['.'], [os.path.join(rel_path, name)] (or
    [name] alone when [rel_path] is ['.']) appends a component, and
    [os.path.relpath(root, local_folder)] of a directory that [os.walk]
    reaches is the list of directory names walked through to reach it. *)
Definition rel_path := list string.

(** The string of a relative path, as shown in status messages. *)
Definition show_rel (p : rel_path) : string :=
  match p with
  | [] => "."
  | c :: cs => foldl join c cs
  end.

(** The [root] string [os.walk] yields for the directory at [p], and the
    path of an entry [name] in it. *)
Definition root_of (local_folder : string) (p : rel_path) : string :=
  foldl join local_folder p.

End Path.

(** ** The world a background thread runs in *)

(** Calls into [GoogleDriveManager] that reach the remote service. *)
Inductive Call :=
| CreateFolder (folder_name parent_id : string)
| UploadFile (file_path parent_id : string)
| DownloadFile (file_id save_path : string)
| DeleteFile (file_id : string).

(** What a worker thread does that is visible outside it, in order:
    - [EvStatus]: [progress_dialog.update_status(status, progress)];
    - [EvCall]: a drive-manager call is started;
    - [EvPostInfo], [EvPostError], [EvPostRefresh], [EvPostClose]: the thread
      hands [messagebox.showinfo], [messagebox.showerror] (for the caught
      exception [exc]), [_refresh_files] or [progress_dialog.close] to the
      interactive thread with [root.after(0, ...)]. *)
Inductive Event :=
| EvStatus (status : string) (progress : option Q)
| EvCall (c : Call)
| EvPostInfo (title message : string)
| EvPostError (title exc : string)
| EvPostRefresh
| EvPostClose.

(** Everything a worker thread reads from outside:
    - [cancelled n]: the value of [progress_dialog.cancelled] read once [n]
      drive-manager calls have been started;
    - [remote n c]: the outcome of the [n]-th call (counting from zero) when
      it is [c]: the returned id, or the exception it raises (a missing
      local file included);
    - [auto_refresh]: [config_manager.get('auto_refresh', True)]. *)
Record World := mkWorld {
  cancelled : nat -> bool;
  remote : nat -> Call -> Result string;
  auto_refresh : bool
}.

(** A computation of a worker thread: given the world and the number of
    calls started so far, a result or a raised exception, the events
    performed, and the number of calls started afterwards. *)
Record Out (A : Type) := mkOut {
  out_res : Result A;
  out_events : list Event;
  out_calls : nat
}.
Arguments mkOut {A} _ _ _.
Arguments out_res {A} _.
Arguments out_events {A} _.
Arguments out_calls {A} _.

Definition Thread (A : Type) : Type := World -> nat -> Out A.

Definition ret {A} (a : A) : Thread A := fun _ n => mkOut (Ok a) [] n.

Definition raise {A} (exc : string) : Thread A := fun _ n => mkOut (Raise exc) [] n.

Definition bind {A B} (m : Thread A) (k : A -> Thread B) : Thread B :=
  fun w n =>
    let o := m w n in
    match out_res o with
    | Ok a =>
        let o' := k a w (out_calls o) in
        mkOut (out_res o') (out_events o ++ out_events o') (out_calls o')
    | Raise exc => mkOut (Raise exc) (out_events o) (out_calls o)
    end.

Declare Scope thread_scope.
Delimit Scope thread_scope with thread.
Notation "x <- m ;; k" := (bind m (fun x => k))
  (at level 20, m at level 99, k at level 200, only parsing) : thread_scope.
Notation "m ;; k" := (bind m (fun _ => k))
  (at level 100, k at level 200, only parsing, right associativity) : thread_scope.
Local Open Scope thread_scope.

Definition emit (e : Event) : Thread unit := fun _ n => mkOut (Ok tt) [e] n.

Definition is_cancelled : Thread bool := fun w n => mkOut (Ok (cancelled w n)) [] n.

Definition get_auto_refresh : Thread bool := fun w n => mkOut (Ok (auto_refresh w)) [] n.

(** A drive-manager call: its [try ... except: log; raise] wrapper passes the
    exception on unchanged. *)
Definition drive_call (c : Call) : Thread string :=
  fun w n => mkOut (remote w n c) [EvCall c] (S n).

(** [try: m except Exception as e: h e]. *)
Definition try_except {A} (m : Thread A) (h : string -> Thread A) : Thread A :=
  fun w n =>
    let o := m w n in
    match out_res o with
    | Ok _ => o
    | Raise exc =>
        let o' := h exc w (out_calls o) in
        mkOut (out_res o') (out_events o ++ out_events o') (out_calls o')
    end.

(** [try: m finally: f]. *)
Definition finally {A} (m : Thread A) (f : Thread unit) : Thread A :=
  fun w n =>
    let o := m w n in
    let o' := f w (out_calls o) in
    mkOut (match out_res o' with Ok _ => out_res o | Raise exc => Raise exc end)
          (out_events o ++ out_events o') (out_calls o').

(** The events of a thread started with no call made yet. *)
Definition run {A} (w : World) (m : Thread A) : list Event := out_events (m w 0).

Definition call_of (e : Event) : option Call :=
  match e with EvCall c => Some c | _ => None end.

Definition calls_of (evs : list Event) : list Call := omap call_of evs.

Definition is_post_info (e : Event) : bool :=
  match e with EvPostInfo _ _ => true | _ => false end.

Definition is_post_error (e : Event) : bool :=
  match e with EvPostError _ _ => true | _ => false end.

Definition is_status (e : Event) : bool :=
  match e with EvStatus _ _ => true | _ => false end.

(** [a / b] on Python ints. *)
Definition truediv (a b : nat) : Thread Q :=
  match b with
  | 0 => raise "division by zero"
  | S _ => ret (inject_Z (Z.of_nat a) / inject_Z (Z.of_nat b))%Q
  end.

(** The percentage of item [i] of [total]: [(i / total) * 100]. *)
Definition percent (i total : nat) : Q :=
  (inject_Z (Z.of_nat i) / inject_Z (Z.of_nat total) * 100)%Q.


(** ** core/gdrive_manager.py *)

Module Drive.
Import DataModels Path.

(** Builtins of the Python runtime that [list_files] relies on:
    [str.lower] and [int] applied to a string ([None] when [int] raises
    [ValueError]). *)
Record Builtins := mkBuiltins {
  str_lower : string -> string;
  int_of_str : string -> option Z
}.

(** One file resource of [ListFile(...).GetList()]. The code indexes ['id']
    and ['title'] (a missing key raises [KeyError]) and reads the other keys
    with [get] and a default. Every value present is a string. *)
Record DriveFile := mkDriveFile {
  f_id : option string;
  f_title : option string;
  f_fileSize : option string;
  f_modifiedDate : option string;
  f_mimeType : option string
}.

Definition folder_mime : string := "application/vnd.google-apps.folder".

(** The body of the inner [try]: a [FileItem], a [ValueError] (caught by the
    inner [except]) or any other exception (not caught there). *)
Inductive Conv :=
| Converted (item : FileItem)
| ValueError (msg : string)
| OtherError (msg : string).

Definition convert (py : Builtins) (parent_id : string) (f : DriveFile) : Conv :=
  match f_id f with
  | None => OtherError "KeyError: 'id'"
  | Some id =>
  match f_title f with
  | None => OtherError "KeyError: 'title'"
  | Some title =>
  match (match f_fileSize f with None => Some 0%Z | Some s => int_of_str py s end) with
  | None => ValueError "invalid literal for int() with base 10"
  | Some size =>
      let modified_date := default "" (f_modifiedDate f) in
      let mime_type := default "" (f_mimeType f) in
      let is_folder :=
        match f_mimeType f with
        | Some m => String.eqb m folder_mime
        | None => false
        end in
      match new_FileItem id title size modified_date mime_type is_folder parent_id with
      | Ok item => Converted item
      | Raise msg => ValueError msg
      end
  end end end.

(** The [for f in file_list] loop: the items appended, in order, and the
    warnings logged for skipped entries; or the exception that ends it. *)
Fixpoint collect (py : Builtins) (parent_id : string) (file_list : list DriveFile)
    : Result (list FileItem * list string) :=
  match file_list with
  | [] => Ok ([], [])
  | f :: rest =>
      match convert py parent_id f with
      | OtherError msg => Raise msg
      | ValueError msg =>
          match collect py parent_id rest with
          | Ok (items, warnings) =>
              Ok (items, ("Skipping invalid file item: " +:+ msg) :: warnings)
          | Raise e => Raise e
          end
      | Converted item =>
          match collect py parent_id rest with
          | Ok (items, warnings) => Ok (item :: items, warnings)
          | Raise e => Raise e
          end
      end
  end.

(** The sort key [(not x.is_folder, x.title.lower())] and the order of such
    tuples: [False] before [True], then the strings character by character. *)
Definition sort_key (py : Builtins) (x : FileItem) : bool * string :=
  (negb (is_folder x), str_lower py (title x)).

Definition key_leb (k1 k2 : bool * string) : bool :=
  match fst k1, fst k2 with
  | false, true => true
  | true, false => false
  | _, _ => String.leb (snd k1) (snd k2)
  end.

(** [list.sort(key=...)] is a stable sort; stable insertion computes the
    same list. *)
Fixpoint insert_by {A K} (key : A -> K) (leb : K -> K -> bool) (x : A) (l : list A)
    : list A :=
  match l with
  | [] => [x]
  | y :: l' => if leb (key x) (key y) then x :: l else y :: insert_by key leb x l'
  end.

Definition sort_by {A K} (key : A -> K) (leb : K -> K -> bool) (l : list A) : list A :=
  foldr (insert_by key leb) [] l.

(** [list_files(parent_id)], given what [GetList()] answers: the sorted
    items and the warnings logged, or the exception passed on by the outer
    [except]. *)
Definition list_files (py : Builtins) (listing : Result (list DriveFile))
    (parent_id : string) : Result (list FileItem * list string) :=
  match listing with
  | Raise e => Raise e
  | Ok file_list =>
      match collect py parent_id file_list with
      | Ok (items, warnings) => Ok (sort_by (sort_key py) key_leb items, warnings)
      | Raise e => Raise e
      end
  end.

(** The entry an item comes from, when the entry is kept. *)
Definition kept (py : Builtins) (parent_id : string) (f : DriveFile) : option FileItem :=
  match convert py parent_id f with
  | Converted item => Some item
  | _ => None
  end.

Definition has_id_title (f : DriveFile) : Prop :=
  is_Some (f_id f) /\ is_Some (f_title f).

(** A local directory as [os.walk] sees it: its subdirectories by name, the
    names of its files, and whether the walk enters it ([false] for what
    [os.walk] lists but does not descend into: a symbolic link to a
    directory, a directory it cannot read). *)
#[local] Unset Elimination Schemes.
Inductive LocalDir :=
| Dir (walked : bool) (subdirs : list (string * LocalDir)) (files : list string).
#[local] Set Elimination Schemes.

Definition WalkEntry : Type := rel_path * list string * list string.

(** [os.walk(local_folder)], top down: a directory before its
    subdirectories, the subdirectories in listing order. *)
Fixpoint os_walk (rel : rel_path) (d : LocalDir) : list WalkEntry :=
  match d with
  | Dir walked subdirs files =>
      if walked then
        (rel, map fst subdirs, files) ::
        flat_map (fun s => match s with (name, sub) => os_walk (rel ++ [name]) sub end) subdirs
      else []
  end.

(** [progress_callback] is an optional status function. *)
Definition notify (progress_callback : option (string -> Thread unit)) (msg : string)
    : Thread unit :=
  match progress_callback with
  | Some cb => cb msg
  | None => ret tt
  end.

Definition create_folder (folder_name parent_id : string) : Thread string :=
  drive_call (CreateFolder folder_name parent_id).

Definition upload_file (file_path parent_id : string) : Thread string :=
  drive_call (UploadFile file_path parent_id).

Definition download_file (file_id save_path : string) : Thread string :=
  drive_call (DownloadFile file_id save_path).

Definition delete_file (file_id : string) : Thread string :=
  drive_call (DeleteFile file_id).

Section upload_folder.
Variable progress_callback : option (string -> Thread unit).
Variable local_folder : string.

(** [for dir_name in dirs]. *)
Fixpoint create_subdirs (rel : rel_path) (current_parent_id : string)
    (dirs : list string) (folder_map : gmap rel_path string)
    : Thread (gmap rel_path string) :=
  match dirs with
  | [] => ret folder_map
  | dir_name :: rest =>
      let dir_rel_path := rel ++ [dir_name] in
      notify progress_callback ("Creating folder: " +:+ show_rel dir_rel_path) ;;
      subfolder_id <- create_folder dir_name current_parent_id ;;
      create_subdirs rel current_parent_id rest (<[dir_rel_path := subfolder_id]> folder_map)
  end.

(** [for file_name in files]. *)
Fixpoint upload_files (rel : rel_path) (current_parent_id : string)
    (files : list string) : Thread unit :=
  match files with
  | [] => ret tt
  | file_name :: rest =>
      let file_path := join (root_of local_folder rel) file_name in
      let file_rel_path := rel ++ [file_name] in
      notify progress_callback ("Uploading: " +:+ show_rel file_rel_path) ;;
      upload_file file_path current_parent_id ;;
      upload_files rel current_parent_id rest
  end.

(** [for root, dirs, files in os.walk(local_folder)]. *)
Fixpoint walk_loop (folder_id : string) (entries : list WalkEntry)
    (folder_map : gmap rel_path string) : Thread (gmap rel_path string) :=
  match entries with
  | [] => ret folder_map
  | (rel, dirs, files) :: rest =>
      let current_parent_id := default folder_id (folder_map !! rel) in
      folder_map' <- create_subdirs rel current_parent_id dirs folder_map ;;
      upload_files rel current_parent_id files ;;
      walk_loop folder_id rest folder_map'
  end.

(** [upload_folder_recursive(local_folder, parent_id, progress_callback)];
    [fs] is the directory found at [local_folder], [None] when nothing
    exists there. *)
Definition upload_folder_recursive (fs : option LocalDir) (parent_id : string)
    : Thread string :=
  match fs with
  | None => raise ("Folder not found: " +:+ local_folder)
  | Some tree =>
      let folder_name := basename local_folder in
      folder_id <- create_folder folder_name parent_id ;;
      let folder_map : gmap rel_path string := {[ [] := folder_id ]} in
      walk_loop folder_id (os_walk [] tree) folder_map ;;
      ret folder_id
  end.

End upload_folder.

End Drive.

(** ** gui/main_window.py : the batch operations *)

Module MainWindow.
Import Path.

(** The three batch threads ([upload_thread], [download_thread],
    [delete_thread]) are the same loop around different parts:
    - [has_row]: the guard [len(values) > 6] of the download and delete
      loops (no guard when uploading);
    - [label]: the status text of item [i] of [total];
    - [action]: the drive-manager call made for the item;
    - [done_title], [done_message]: the completion message;
    - [refreshes]: whether the completion branch goes on to the
      [auto_refresh] test;
    - [error_title]: the title of the error message. *)
Record Batch (Item : Type) := mkBatch {
  has_row : Item -> bool;
  label : Item -> nat -> nat -> string;
  action : Item -> Call;
  done_title : string;
  done_message : nat -> string;
  refreshes : bool;
  error_title : string
}.
Arguments has_row {Item} _ _.
Arguments label {Item} _ _ _ _.
Arguments action {Item} _ _.
Arguments done_title {Item} _.
Arguments done_message {Item} _ _.
Arguments refreshes {Item} _.
Arguments error_title {Item} _.

(** [for i, item in enumerate(items)], with [count] the number of items done. *)
Fixpoint batch_loop {Item} (b : Batch Item) (total i : nat) (items : list Item)
    (count : nat) : Thread nat :=
  match items with
  | [] => ret count
  | item :: rest =>
      c <- is_cancelled ;;
      if c : bool then ret count
      else if has_row b item then
        q <- truediv i total ;;
        let progress := (q * 100)%Q in
        emit (EvStatus (label b item i total) (Some progress)) ;;
        drive_call (action b item) ;;
        batch_loop b total (S i) rest (S count)
      else batch_loop b total (S i) rest count
  end.

Definition batch_thread {Item} (b : Batch Item) (items : list Item) : Thread unit :=
  finally
    (try_except
       (count <- batch_loop b (length items) 0 items 0 ;;
        c <- is_cancelled ;;
        if negb c && (0 <? count) then
          emit (EvPostInfo (done_title b) (done_message b count)) ;;
          if refreshes b then
            ar <- get_auto_refresh ;;
            if ar : bool then emit EvPostRefresh else ret tt
          else ret tt
        else ret tt)
       (fun exc => emit (EvPostError (error_title b) exc)))
    (emit EvPostClose).

Definition plural (n : nat) : string := if n =? 1 then "" else "s".

Definition counter (i total : nat) : string :=
  " (" +:+ pretty (i + 1) +:+ "/" +:+ pretty total +:+ ")".

Definition newline : string := String (ascii_of_nat 10) EmptyString.

(** [_perform_file_upload(file_paths)] into [current_folder_id]. *)
Definition upload_batch (current_folder_id : string) : Batch string := {|
  has_row := fun _ => true;
  label := fun file_path i total =>
    "Uploading: " +:+ basename file_path +:+ counter i total;
  action := fun file_path => UploadFile file_path current_folder_id;
  done_title := "Upload Complete";
  done_message := fun n => "Successfully uploaded " +:+ pretty n +:+ " file" +:+ plural n;
  refreshes := true;
  error_title := "Upload Error"
|}.

Definition perform_file_upload (current_folder_id : string) (file_paths : list string)
    : Thread unit :=
  batch_thread (upload_batch current_folder_id) file_paths.

(** The rows of the tree view: [tree item] is [self.tree.item(item, 'values')],
    with the file id in column 4 and the title in column 6. *)
Definition column (values : list string) (n : nat) : string := default "" (values !! n).

(** [_perform_download(items, save_path)]. *)
Definition download_batch (tree : string -> list string) (save_path : string)
    : Batch string := {|
  has_row := fun item => 6 <? length (tree item);
  label := fun item i total =>
    "Downloading: " +:+ column (tree item) 6 +:+ counter i total;
  action := fun item =>
    DownloadFile (column (tree item) 4) (join save_path (column (tree item) 6));
  done_title := "Download Complete";
  done_message := fun n =>
    "Successfully downloaded " +:+ pretty n +:+ " file" +:+ plural n +:+ " to:"
    +:+ newline +:+ save_path;
  refreshes := false;
  error_title := "Download Error"
|}.

Definition perform_download (tree : string -> list string) (items : list string)
    (save_path : string) : Thread unit :=
  batch_thread (download_batch tree save_path) items.

(** [_perform_deletion(items)]. *)
Definition delete_batch (tree : string -> list string) : Batch string := {|
  has_row := fun item => 6 <? length (tree item);
  label := fun item i total =>
    "Deleting: " +:+ column (tree item) 6 +:+ counter i total;
  action := fun item => DeleteFile (column (tree item) 4);
  done_title := "Delete Complete";
  done_message := fun n => "Successfully deleted " +:+ pretty n +:+ " item" +:+ plural n;
  refreshes := true;
  error_title := "Delete Error"
|}.

Definition perform_deletion (tree : string -> list string) (items : list string)
    : Thread unit :=
  batch_thread (delete_batch tree) items.

(** [progress_dialog.update_status(status)] with no percentage. *)
Definition update_status (status : string) : Thread unit := emit (EvStatus status None).

(** [_perform_folder_upload(folder_path)] into [current_folder_id]; [fs] is
    the directory found at [folder_path]. *)
Definition perform_folder_upload (current_folder_id folder_path : string)
    (fs : option Drive.LocalDir) : Thread unit :=
  finally
    (try_except
       (let folder_name := basename folder_path in
        update_status ("Uploading folder: " +:+ folder_name) ;;
        Drive.upload_folder_recursive (Some update_status) folder_path fs current_folder_id ;;
        c <- is_cancelled ;;
        if negb c then
          emit (EvPostInfo "Upload Complete"
                  ("Successfully uploaded folder: " +:+ folder_name)) ;;
          ar <- get_auto_refresh ;;
          if ar : bool then emit EvPostRefresh else ret tt
        else ret tt)
       (fun exc => emit (EvPostError "Upload Error" exc)))
    (emit EvPostClose).

End MainWindow.

(** ** More of gui/main_window.py : navigation handlers in sequence *)

Module NavigationOps.
Import DataModels Navigation.

(** The three navigation handlers a user can trigger. *)
Inductive NavOp :=
| Enter (folder_id folder_name : string)
| Back
| Home.

Definition nav_step (nav : NavigationState) (op : NavOp) : NavigationState :=
  fst (match op with
       | Enter folder_id folder_name => navigate_to_folder folder_id folder_name nav
       | Back => go_back nav
       | Home => go_home nav
       end).

Definition nav_run (ops : list NavOp) (nav : NavigationState) : NavigationState :=
  foldl nav_step nav ops.



End NavigationOps.

(** ** More of utils/helpers.py *)

Module HelpersText.
Import Path.

Fixpoint map_string (f : ascii -> ascii) (s : string) : string :=
  match s with
  | EmptyString => EmptyString
  | String c r => String (f c) (map_string f r)
  end.

Fixpoint all_chars (p : ascii -> bool) (s : string) : bool :=
  match s with
  | EmptyString => true
  | String c r => p c && all_chars p r
  end.

(** The character class of [invalid_chars]: the control characters 0 to 31
    and the nine characters less-than, greater-than, colon, double quote,
    slash, backslash, bar, question mark and star. *)
Definition invalid_char (c : ascii) : bool :=
  (nat_of_ascii c <=? 31)
  || existsb (Ascii.eqb c)
       ["<"%char; ">"%char; ":"%char; ascii_of_nat 34; "/"%char; ascii_of_nat 92;
        "|"%char; "?"%char; "*"%char].

(** [re.sub(invalid_chars, '_', filename)]. *)
Definition replace_invalid (s : string) : string :=
  map_string (fun c => if invalid_char c then "_"%char else c) s.

(** [str.strip(chars)], here with the characters given as a predicate. *)
Fixpoint lstrip (p : ascii -> bool) (s : string) : string :=
  match s with
  | EmptyString => EmptyString
  | String c r => if p c then lstrip p r else s
  end.

Fixpoint rstrip (p : ascii -> bool) (s : string) : string :=
  match s with
  | EmptyString => EmptyString
  | String c r =>
      match rstrip p r with
      | EmptyString => if p c then EmptyString else String c EmptyString
      | r' => String c r'
      end
  end.

Definition strip (p : ascii -> bool) (s : string) : string := rstrip p (lstrip p s).

Definition dot_or_space (c : ascii) : bool :=
  Ascii.eqb c "."%char || Ascii.eqb c " "%char.

Definition is_dot (c : ascii) : bool := Ascii.eqb c "."%char.

(** The split of a string at its last dot: what precedes it, and the rest
    from the dot on. *)
Fixpoint last_dot (s : string) : option (string * string) :=
  match s with
  | EmptyString => None
  | String c r =>
      match last_dot r with
      | Some (before, ext) => Some (String c before, ext)
      | None => if is_dot c then Some (EmptyString, s) else None
      end
  end.

(** [os.path.splitext]: the extension starts at the last dot, provided that
    dot comes after the last separator and some character of the file name
    before it is not a dot. *)
Definition splitext (p : string) : string * string :=
  match last_dot p with
  | None => (p, EmptyString)
  | Some (before, ext) =>
      if has_slash ext then (p, EmptyString)
      else if all_chars is_dot (basename before) then (p, EmptyString)
      else (before, ext)
  end.

Fixpoint take_string (n : nat) (s : string) : string :=
  match n, s with
  | S n', String c r => String c (take_string n' r)
  | _, _ => EmptyString
  end.

(** The slice [s[:k]] for an integer [k]: a negative [k] counts from the
    end. *)
Definition slice_to (k : Z) (s : string) : string :=
  if (0 <=? k)%Z then take_string (Z.to_nat k) s
  else take_string (Z.to_nat (Z.of_nat (String.length s) + k)) s.

(** The part of [sanitize_filename] before the length limit. *)
Definition sanitize_chars (filename : string) : string :=
  let sanitized := strip dot_or_space (replace_invalid filename) in
  if negb (truthy sanitized) then "untitled" else sanitized.

(** The length limit. *)
Definition limit_length (sanitized : string) : string :=
  if 255 <? String.length sanitized then
    let '(name, ext) := splitext sanitized in
    let max_name_len := (255 - Z.of_nat (String.length ext))%Z in
    slice_to max_name_len name +:+ ext
  else sanitized.

Definition sanitize_filename (filename : string) : string :=
  if negb (truthy filename) then "untitled"
  else limit_length (sanitize_chars filename).

(** [is_hidden_file]: [filename.startswith('.')]. *)
Definition is_hidden_file (filename : string) : bool :=
  match filename with
  | String c _ => is_dot c
  | EmptyString => false
  end.

End HelpersText.

(** ** The percentages, with the rounding of floats *)

Module Floats.

(** A Python float operation gives the exact result rounded to a binary64
    number; [rnd] is that rounding, on the results that are in range. *)
Record Rounding := mkRounding { rnd : Q -> Q }.

(** No rounding: the arithmetic of [Helpers.percentage] and
    [DataModels.up_percentage]. *)
Definition exact : Rounding := mkRounding (fun q => q).

(** The [percentage] property of [ProgressTracker] and of [UploadProgress]:
    [0.0] when the total is zero, else [(completed / total) * 100.0], a true
    division of two ints and a float product, each rounded once. *)
Definition percentage_of (r : Rounding) (completed total : Z) : Q :=
  if (total =? 0)%Z then 0%Q
  else rnd r (rnd r (inject_Z completed / inject_Z total) * 100)%Q.

End Floats.

Module HelpersWalk.
Import Path Drive.

(** [count_files_in_folder]: [(file_count, dir_count)] summed over the walk.
    [os.walk] reports no error of its own, so the [except] branch is not
    taken. *)
Definition count_files_in_folder (tree : LocalDir) : nat * nat :=
  foldl (fun acc e =>
           match acc, e with
           | (file_count, dir_count), (_, dirnames, filenames) =>
               (file_count + length filenames, dir_count + length dirnames)
           end) (0, 0) (os_walk [] tree).

End HelpersWalk.

(** ** config/config_manager.py *)

Module Config.

Section config.
(** [V]: the values a configuration holds (anything JSON can carry). *)
Context {V : Type}.

(** [default_config] is built by [__init__]; [_config] is [None] until the
    configuration is first read. *)
Record ConfigManager := mkConfig {
  default_config : gmap string V;
  _config : option (gmap string V)
}.

Definition new_ConfigManager (defaults : gmap string V) : ConfigManager :=
  mkConfig defaults None.

(** [load_config]; [file] is the dictionary read from the configuration
    file, [None] when the file does not exist or cannot be read as one.
    [{**default_config, **loaded_config}]: the loaded values win. *)
Definition load_config (file : option (gmap string V)) (self : ConfigManager)
    : gmap string V :=
  match file with
  | Some loaded_config => loaded_config ∪ default_config self
  | None => default_config self
  end.

(** The [config] property: loads on first use. *)
Definition config (file : option (gmap string V)) (self : ConfigManager)
    : gmap string V * ConfigManager :=
  match _config self with
  | Some c => (c, self)
  | None =>
      let c := load_config file self in
      (c, mkConfig (default_config self) (Some c))
  end.

Definition get (key : string) (default : V) (file : option (gmap string V))
    (self : ConfigManager) : V * ConfigManager :=
  let '(c, self') := config file self in
  (from_option (fun v => v) default (c !! key), self').

Definition set (key : string) (value : V) (file : option (gmap string V))
    (self : ConfigManager) : ConfigManager :=
  let '(c, self') := config file self in
  mkConfig (default_config self') (Some (<[key := value]> c)).

(** [update(updates)]: [dict.update], the new values win. *)
Definition update (updates : gmap string V) (file : option (gmap string V))
    (self : ConfigManager) : ConfigManager :=
  let '(c, self') := config file self in
  mkConfig (default_config self') (Some (updates ∪ c)).

Definition reset_to_defaults (self : ConfigManager) : ConfigManager :=
  mkConfig (default_config self) (Some (default_config self)).

(** [save_config], when the file can be written: what [json.dump] writes for
    [self._config], the dictionary or, for [None], the JSON [null], which is
    no dictionary to a later [load_config]. *)
Definition save_config (self : ConfigManager) : option (gmap string V) := _config self.

(** What a caller can do to a manager between its construction and a save. *)
Inductive CfgOp :=
| CRead
| CSet (key : string) (value : V)
| CUpdate (updates : gmap string V)
| CReset.

Definition cfg_step (file : option (gmap string V)) (self : ConfigManager) (o : CfgOp)
    : ConfigManager :=
  match o with
  | CRead => (config file self).2
  | CSet key value => set key value file self
  | CUpdate updates => update updates file self
  | CReset => reset_to_defaults self
  end.

Definition cfg_run (file : option (gmap string V)) (defaults : gmap string V)
    (ops : list CfgOp) : ConfigManager :=
  foldl (cfg_step file) (new_ConfigManager defaults) ops.

End config.

Arguments ConfigManager V : clear implicits.
Arguments CfgOp V : clear implicits.

End Config.

(** ** More of core/gdrive_manager.py : get_file_info *)

Module DriveInfo.
Import DataModels Drive.

(** What [FetchMetadata] leaves in the file object: the keys of a listing
    entry and, under ['parents'], a list of dictionaries of which only the
    ['id'] ([None] when a dictionary has no such key) is read. *)
Record Metadata := mkMetadata {
  m_file : DriveFile;
  m_parents : option (list (option string))
}.

(** [gfile.get('parents', [{'id': 'root'}])[0]['id']]: [None] stands for the
    [IndexError] of an empty list or the [KeyError] of a missing id. *)
Definition first_parent (parents : option (list (option string))) : option string :=
  match parents with
  | None => Some "root"
  | Some [] => None
  | Some (p :: _) => p
  end.

(** [get_file_info(file_id)], given the outcome of [FetchMetadata]: every
    exception is caught and answered by [None]. *)
Definition get_file_info (py : Builtins) (fetched : Result Metadata) : option FileItem :=
  match fetched with
  | Raise _ => None
  | Ok gfile =>
      let f := m_file gfile in
      match f_id f with
      | None => None
      | Some id =>
      match f_title f with
      | None => None
      | Some title =>
      match (match f_fileSize f with None => Some 0%Z | Some s => int_of_str py s end) with
      | None => None
      | Some size =>
          let modified_date := default "" (f_modifiedDate f) in
          let mime_type := default "" (f_mimeType f) in
          let is_folder :=
            match f_mimeType f with
            | Some m => String.eqb m folder_mime
            | None => false
            end in
          match first_parent (m_parents gfile) with
          | None => None
          | Some parent_id =>
              match new_FileItem id title size modified_date mime_type is_folder parent_id with
              | Ok item => Some item
              | Raise _ => None
              end
          end
      end end end
  end.

End DriveInfo.

(** ** More of gui/main_window.py : the rows of the file list *)

Module Rows.
Import DataModels Path MainWindow.

(** The three formatting helpers of utils/helpers.py that fill the visible
    columns. *)
Record Formats := mkFormats {
  format_file_size : Z -> string;
  format_datetime : string -> string;
  get_file_type_description : string -> string
}.

(** [str(b)] for a Python [bool]. *)
Definition str_bool (b : bool) : string := if b then "True" else "False".

Definition folder_icon : string := "📁".
Definition file_icon : string := "📄".

(** The [values] tuple [_populate_file_list] inserts for one item. *)
Definition row_values (fmt : Formats) (file_item : FileItem) : list string :=
  let icon := if is_folder file_item then folder_icon else file_icon in
  let display_name := icon +:+ " " +:+ title file_item in
  let size_str :=
    if is_folder file_item then "-" else format_file_size fmt (size file_item) in
  let modified_str := format_datetime fmt (modified_date file_item) in
  let type_str := get_file_type_description fmt (mime_type file_item) in
  [ display_name; size_str; modified_str; type_str;
    id file_item; str_bool (is_folder file_item); title file_item;
    mime_type file_item ].

(** The text of the file count label. *)
Definition count_text (files : list FileItem) : string :=
  let file_count := length files in
  let folder_count := length (List.filter is_folder files) in
  let file_only_count := file_count - folder_count in
  if (0 <? folder_count) && (0 <? file_only_count) then
    pretty folder_count +:+ " folders, " +:+ pretty file_only_count +:+ " files"
  else if 0 <? folder_count then pretty folder_count +:+ " folders"
  else if 0 <? file_only_count then pretty file_only_count +:+ " files"
  else "Empty".

(** [_populate_file_list(files)]: the rows now in the tree, in order, the
    count label and the status message. *)
Definition populate_file_list (fmt : Formats) (files : list FileItem)
    : list (list string) * string * string :=
  (map (row_values fmt) files, count_text files,
   "Loaded " +:+ pretty (length files) +:+ " items").

(** The tree view as the handlers read it: [iid n] is the identifier the
    toolkit gave to the [n]-th row inserted; [self.tree.item(item, 'values')]
    is the tuple of that row. *)
Fixpoint tree_of (iid : nat -> string) (n : nat) (rows : list (list string))
    (item : string) : list string :=
  match rows with
  | [] => []
  | values :: rest =>
      if String.eqb (iid n) item then values else tree_of iid (S n) rest item
  end.

(** What a handler on the interactive thread ends up doing. *)
Inductive UiAction :=
| ShowWarning (title message : string)
| NoAction
| NavigateTo (folder_id folder_name : string)
| DownloadSelected
| StartDownload (items : list string) (save_path : string).

(** [_on_item_double_click]: [selection] is the selected row identifiers. *)
Definition on_item_double_click (tree : string -> list string) (selection : list string)
    : UiAction :=
  match selection with
  | [] => NoAction
  | item :: _ =>
      let values := tree item in
      if 5 <? length values then
        let is_folder := String.eqb (column values 5) "True" in
        let file_id := column values 4 in
        let folder_name := column values 6 in
        if is_folder then NavigateTo file_id folder_name else DownloadSelected
      else NoAction
  end.

(** The rows [_download_selected] keeps: [len(values) > 5 and values[5] != 'True']. *)
Definition downloadable (values : list string) : bool :=
  (5 <? length values) && negb (String.eqb (column values 5) "True").

(** [_download_selected]: [selection] is the selected row identifiers,
    [chosen] what the directory dialog returns (empty when dismissed).
    [StartDownload] stands for storing [chosen] as [last_download_path],
    saving the configuration and calling [_perform_download]. *)
Definition download_selected (tree : string -> list string) (selection : list string)
    (chosen : string) : UiAction :=
  match selection with
  | [] => ShowWarning "No Selection" "Please select files to download"
  | _ =>
      let files_to_download :=
        List.filter (fun item => downloadable (tree item)) selection in
      match files_to_download with
      | [] => ShowWarning "No Files Selected"
                "Only files can be downloaded (folders not supported yet)"
      | _ =>
          if truthy chosen then StartDownload files_to_download chosen
          else NoAction
      end
  end.

End Rows.

(** * Vocabulary of the properties *)

(** ** Observing a thread *)

Module Observe.

(** Posted messages among a list of events. *)
Definition no_posts (evs : list Event) : Prop :=
  Forall (fun e => is_post_info e = false /\ is_post_error e = false) evs.

(** The status reports among the events: [(status, progress)]. *)
Definition report_of (e : Event) : option (string * option Q) :=
  match e with EvStatus s p => Some (s, p) | _ => None end.

Definition reports (evs : list Event) : list (string * option Q) := omap report_of evs.

(** A world in which every call raises. *)
Definition failing_world : World :=
  mkWorld (fun _ => false) (fun _ _ => Raise "HttpError 500") true.

(** A service that answers its [n]-th call with [ids n]. *)
Definition answering (ids : nat -> string) (flag : nat -> bool) : World :=
  mkWorld flag (fun n _ => Ok (ids n)) true.

(** The same world with another history of the cancellation flag. *)
Definition with_flag (flag : nat -> bool) (w : World) : World :=
  mkWorld flag (remote w) (auto_refresh w).

(** [triple w P m Q]: started when the calls made so far are [pre] with
    [P pre], the thread [m] ends (normally or by raising) with result [r]
    and all calls made [cs] such that [Q r cs]; the call counter it leaves
    is the number of those calls. *)
Definition triple (w : World) {A} (P : list Call -> Prop) (m : Thread A)
    (Q : Result A -> list Call -> Prop) : Prop :=
  forall pre, P pre ->
    let o := m w (length pre) in
    out_calls o = length (pre ++ calls_of (out_events o))
    /\ Q (out_res o) (pre ++ calls_of (out_events o)).

End Observe.

(** ** Batches *)

Module BatchSpec.
Import MainWindow.

Section batch.
Context {Item : Type} (b : Batch Item) (w : World).

(** What the thread adds after the loop. *)
Definition epilogue (lo : Out nat) : list Event :=
  match out_res lo with
  | Raise exc => [EvPostError (error_title b) exc; EvPostClose]
  | Ok count =>
      if negb (cancelled w (out_calls lo)) && (0 <? count) then
        EvPostInfo (done_title b) (done_message b count)
        :: (if refreshes b && auto_refresh w then [EvPostRefresh] else [])
        ++ [EvPostClose]
      else [EvPostClose]
  end.

(** The items the loop has a call for, in order. *)
Definition attemptable (items : list Item) : list Item := List.filter (has_row b) items.

(** The report made for item [i] of [total]. *)
Definition item_report (total i : nat) (item : Item) : string * option Q :=
  (label b item i total, Some (percent i total)).

(** The items the loop has a call for, each with its index in the batch,
    counted from [i]. *)
Fixpoint indexed_rows (i : nat) (items : list Item) : list (nat * Item) :=
  match items with
  | [] => []
  | item :: rest =>
      if has_row b item then (i, item) :: indexed_rows (S i) rest
      else indexed_rows (S i) rest
  end.

(** One item served: its status report, then its call. *)
Definition item_events (total : nat) (p : nat * Item) : list Event :=
  [EvStatus (label b p.2 p.1 total) (Some (percent p.1 total)); EvCall (action b p.2)].

End batch.

End BatchSpec.

(** ** Listings *)

Module ListingSpec.
Import DataModels Drive.

(** The order of two items by their keys. *)
Definition key_le {A K} (key : A -> K) (leb : K -> K -> bool) (x y : A) : Prop :=
  leb (key x) (key y) = true.

(** What a listing of [parent_id] shows for one entry of the service's
    answer, stated without the code's constructor and its exceptions.  An
    entry is shown when its id and its title are present and not empty and
    its size, when it has one, reads as an integer.  It is then shown with
    its own id and title, that size (0 when it has none), its date and its
    type (empty when it has none), as a folder exactly when its type is the
    folder type, and with [parent_id] as its parent.  No other entry is
    shown. *)
Definition shown (py : Builtins) (parent_id : string) (f : DriveFile) : option FileItem :=
  match f_id f, f_title f with
  | Some i, Some t =>
      if bool_decide (i <> "" /\ t <> "") then
        match f_fileSize f with
        | None =>
            Some (mkFileItem i t 0 (default "" (f_modifiedDate f))
                    (default "" (f_mimeType f))
                    (bool_decide (f_mimeType f = Some folder_mime)) parent_id)
        | Some s =>
            match int_of_str py s with
            | Some z =>
                Some (mkFileItem i t z (default "" (f_modifiedDate f))
                        (default "" (f_mimeType f))
                        (bool_decide (f_mimeType f = Some folder_mime)) parent_id)
            | None => None
            end
        end
      else None
  | _, _ => None
  end.

(** A runtime for examples: titles already in lower case, sizes ["12"] only. *)
Definition ascii_py : Builtins :=
  mkBuiltins (fun s => s) (fun s => if String.eqb s "12" then Some 12%Z else None).

Definition sample_listing : list DriveFile :=
  [ mkDriveFile (Some "1") (Some "b") None None None;
    mkDriveFile (Some "") (Some "x") None None None;
    mkDriveFile (Some "2") (Some "z") (Some "12") None (Some folder_mime);
    mkDriveFile (Some "3") (Some "") None None None;
    mkDriveFile (Some "4") (Some "a") None None None ].

End ListingSpec.

(** ** Folder uploads *)

Module FolderSpec.
Import Path Drive.

(** The tree [root/{a.txt, sub/{b.txt}}]. *)
Definition sample_tree : LocalDir :=
  Dir true [("sub", Dir true [] ["b.txt"])] ["a.txt"].

(** A callback that only reports: it makes no call of its own. *)
Definition status_only (cb : option (string -> Thread unit)) : Prop :=
  forall f msg w n, cb = Some f ->
    out_calls (f msg w n) = n /\ calls_of (out_events (f msg w n)) = [].

Section upload.
Context (w : World) (local_folder parent_id : string).

(** [folder_of cs p i id]: among the calls [cs], the [i]-th created the
    remote folder of the local directory at [p] and the service answered
    [id]. The folder of the uploaded directory itself is the one created by
    the first call; the folder of a subdirectory [d] of the directory at
    [p] is one created later, with title [d], under the folder of [p]. *)
Inductive folder_of (cs : list Call) : rel_path -> nat -> string -> Prop :=
| folder_top id :
    cs !! 0 = Some (CreateFolder (basename local_folder) parent_id) ->
    remote w 0 (CreateFolder (basename local_folder) parent_id) = Ok id ->
    folder_of cs [] 0 id
| folder_sub p i pid d j id :
    folder_of cs p i pid ->
    i < j ->
    cs !! j = Some (CreateFolder d pid) ->
    remote w j (CreateFolder d pid) = Ok id ->
    folder_of cs (p ++ [d]) j id.

(** What the [j]-th call [c] must be, in a walk with entries [E]: the
    creation of the top folder; or the creation of a subdirectory listed in
    an entry, under the folder created earlier for that entry's directory;
    or the upload of a file listed in an entry, under the folder created
    earlier for that entry's directory. *)
Definition call_ok (E : list WalkEntry) (cs : list Call) (j : nat) (c : Call) : Prop :=
  match c with
  | CreateFolder d pid =>
      (j = 0 /\ d = basename local_folder /\ pid = parent_id)
      \/ exists p dirs files i,
           (p, dirs, files) ∈ E /\ d ∈ dirs /\ i < j /\ folder_of cs p i pid
  | UploadFile path pid =>
      exists p dirs files f i,
        (p, dirs, files) ∈ E /\ f ∈ files
        /\ path = join (root_of local_folder p) f
        /\ i < j /\ folder_of cs p i pid
  | _ => False
  end.

Definition calls_ok (E : list WalkEntry) (cs : list Call) : Prop :=
  forall j c, cs !! j = Some c -> call_ok E cs j c.

(** Every id in [folder_map] is that of the folder created for its key. *)
Definition map_ok (cs : list Call) (folder_map : gmap rel_path string) : Prop :=
  forall p id, folder_map !! p = Some id -> exists i, folder_of cs p i id.

Definition grows (m m' : gmap rel_path string) : Prop :=
  forall p, is_Some (m !! p) -> is_Some (m' !! p).

(** What the walk of a subtree guarantees, started with [folder_map = m]. *)
Definition walk_post (E : list WalkEntry) (m : gmap rel_path string)
    (r : Result (gmap rel_path string)) (cs : list Call) : Prop :=
  calls_ok E cs
  /\ match r with
     | Ok m' => map_ok cs m' /\ grows m m'
     | Raise _ => True
     end.

(** The calls a complete upload is made of, parents left open: the top
    folder, then for each directory walked its subdirectories and then its
    files. *)
Inductive Step :=
| MkDir (title : string)
| Put (file_path : string).

Definition entry_steps (e : WalkEntry) : list Step :=
  match e with
  | (rel, dirs, files) =>
      map MkDir dirs ++ map (fun f => Put (join (root_of local_folder rel) f)) files
  end.

Definition planned_steps (tree : LocalDir) : list Step :=
  MkDir (basename local_folder) :: flat_map entry_steps (os_walk [] tree).

Definition performs (c : Call) (s : Step) : Prop :=
  match s with
  | MkDir d => exists pid, c = CreateFolder d pid
  | Put path => exists pid, c = UploadFile path pid
  end.

Definition follows (steps : list Step) {A} (r : Result A) (cs : list Call) : Prop :=
  raises r = false -> Forall2 performs cs steps.

End upload.

End FolderSpec.

(** ** More observations *)

Module ObserveMore.

Definition is_call_event (e : Event) : bool :=
  match e with EvCall _ => true | _ => false end.

Definition is_post_refresh (e : Event) : bool :=
  match e with EvPostRefresh => true | _ => false end.

Definition is_post_close (e : Event) : bool :=
  match e with EvPostClose => true | _ => false end.

(** What a loop body does: status reports and calls. *)
Definition loop_event (e : Event) : bool := is_status e || is_call_event e.

(** Every call of [cs] returned, [cs] being the calls made from the [n]-th
    on. *)
Definition all_ok (w : World) (n : nat) (cs : list Call) : Prop :=
  forall t c, cs !! t = Some c -> raises (remote w (n + t) c) = false.

(** The calls [cs], made from the [n]-th on, end with the one that raised
    [exc]; all before it returned. *)
Definition stopped_at (w : World) (n : nat) (exc : string) (cs : list Call) : Prop :=
  exists pre c,
    cs = pre ++ [c] /\ all_ok w n pre /\ remote w (n + length pre) c = Raise exc.

(** How a thread that makes calls one after the other can end. *)
Definition stop_post (w : World) {A} (r : Result A) (cs : list Call) : Prop :=
  match r with
  | Ok _ => all_ok w 0 cs
  | Raise exc => stopped_at w 0 exc cs
  end.

(** A callback that always returns. *)
Definition never_raises (cb : option (string -> Thread unit)) : Prop :=
  forall f msg w n, cb = Some f -> out_res (f msg w n) = Ok tt.

End ObserveMore.

(** ** Roundings *)

Module FloatSpec.
Import Floats.

(** What the properties need of a rounding, and rounding to nearest
    provides: it keeps the order, and it leaves 0, 1 and 100, which are
    binary64 numbers, as they are. *)
Definition sound_rounding (r : Rounding) : Prop :=
  (forall x y : Q, (x <= y)%Q -> (rnd r x <= rnd r y)%Q)
  /\ (rnd r 0 == 0)%Q /\ (rnd r 1 == 1)%Q /\ (rnd r 100 == 100)%Q.

End FloatSpec.

(** ** Configurations *)

Module ConfigSpec.

(** Every key of the defaults is in the configuration. *)
Definition covers {V} (defaults c : gmap string V) : Prop :=
  forall key, is_Some (defaults !! key) -> is_Some (c !! key).

End ConfigSpec.

(** * Properties *)

Lemma truthy_false s : truthy s = false <-> s = "".
Proof. destruct s; simpl; split; congruence. Qed.

Lemma truthy_true s : truthy s = true <-> s <> "".
Proof. destruct s; simpl; split; congruence. Qed.

(** In a strongly sorted list, an earlier element is related to a later one. *)
Lemma StronglySorted_lookup {A} (R : relation A) (l : list A) i j x y :
  StronglySorted R l -> i < j -> l !! i = Some x -> l !! j = Some y -> R x y.
Proof.
  intros Hs. revert i j x y.
  induction Hs as [|a l Hs IH Hall]; intros i j x y Hij Hi Hj; [done|].
  destruct j as [|j]; [lia|]. simpl in Hj. destruct i as [|i].
  - simpl in Hi. injection Hi as ->.
    rewrite Forall_forall in Hall. apply Hall.
    eapply list_elem_of_lookup_2. exact Hj.
  - simpl in Hi. apply (IH i j); [lia|done|done].
Qed.

Module DataModelsFacts.
Import DataModels.

(** C8. Constructing a FileItem raises exactly when the id or the title is
    the empty string; in every other case it returns the item with the seven
    fields as given, whatever the other five fields hold. Construction is a
    pure function of its arguments: it performs no remote call. *)
Theorem new_FileItem_validation :
  forall id title size modified_date mime_type is_folder parent_id,
    let r := new_FileItem id title size modified_date mime_type is_folder parent_id in
    (raises r = true <-> id = "" \/ title = "")
    /\ (raises r = false <->
        r = Ok (mkFileItem id title size modified_date mime_type is_folder parent_id))
    /\ (raises r = false <-> id <> "" /\ title <> "").
Proof.
  intros i t sz md mt f p. unfold new_FileItem, post_init. simpl.
  destruct i as [|c i], t as [|c' t]; simpl; repeat split; intros; try congruence;
    try tauto; try (destruct H; congruence); auto.
Qed.

Example new_FileItem_empty_id :
  new_FileItem "" "report.txt" 10 "" "text/plain" false "root"
  = Raise "File ID cannot be empty".
Proof. reflexivity. Qed.

Example new_FileItem_empty_title :
  new_FileItem "abc" "" 10 "" "text/plain" false "root"
  = Raise "File title cannot be empty".
Proof. reflexivity. Qed.

End DataModelsFacts.

Module HelpersFacts.
Import Helpers.

Lemma run_ops_snoc total ops o :
  run_ops total (ops ++ [o]) = apply_op (run_ops total ops) o.
Proof. unfold run_ops. by rewrite foldl_app. Qed.

Lemma last_update_snoc ops o :
  last_update (ops ++ [o]) =
  match o with OpUpdate c _ => c | OpAddError _ => last_update ops end.
Proof. unfold last_update. by rewrite foldl_app. Qed.

Lemma run_ops_total total ops : total_items (run_ops total ops) = total.
Proof.
  induction ops as [|o ops IH] using rev_ind; [done|].
  rewrite run_ops_snoc. by destruct o.
Qed.

Lemma run_ops_completed total ops :
  completed_items (run_ops total ops) = last_update ops.
Proof.
  induction ops as [|o ops IH] using rev_ind; [done|].
  rewrite run_ops_snoc, last_update_snoc. by destruct o.
Qed.

Lemma last_update_bounded total ops :
  (0 <= total)%Z -> Forall (update_bounded total) ops -> (last_update ops <= total)%Z.
Proof.
  intros Ht. induction ops as [|o ops IH] using rev_ind; intros Hall; [done|].
  rewrite last_update_snoc. apply Forall_app in Hall as [Hops Ho].
  apply Forall_cons in Ho as [Ho _]. destruct o; simpl in *; auto.
Qed.

(** C3, as stated: false. [update] stores whatever count it is given. *)
Lemma tracker_completed_exceeds_total :
  ~ (forall total ops,
       (completed_items (run_ops total ops) <= total_items (run_ops total ops))%Z).
Proof.
  intros H. specialize (H 3%Z [OpUpdate 5 "a.txt"]). vm_compute in H. by apply H.
Qed.

(** C3, amended. After any sequence of operations on a tracker built for
    [total] items, [total_items] is still [total], [completed_items] is the
    count given to the last [update] (zero when there was none), and
    [percentage] is [completed_items / total_items * 100] when [total_items]
    is not zero and [0] when it is. The bound [completed_items <= total_items]
    holds when [total] is not negative and every [update] was given a count
    of at most [total]; nothing in the class enforces it. *)
Theorem tracker_state :
  forall total ops,
    let t := run_ops total ops in
    total_items t = total
    /\ completed_items t = last_update ops
    /\ percentage t =
       (if (total =? 0)%Z then 0%Q
        else (inject_Z (last_update ops) / inject_Z total * 100)%Q)
    /\ ((0 <= total)%Z -> Forall (update_bounded total) ops ->
        (completed_items t <= total_items t)%Z).
Proof.
  intros total ops t. subst t.
  repeat split.
  - apply run_ops_total.
  - apply run_ops_completed.
  - unfold percentage. by rewrite run_ops_total, run_ops_completed.
  - intros Ht Hall. rewrite run_ops_total, run_ops_completed.
    by apply last_update_bounded.
Qed.

Lemma tracker_state_witness :
  let t := run_ops 4 [OpUpdate 1 "a"; OpAddError "b failed"; OpUpdate 3 "c"] in
  (completed_items t <= total_items t)%Z /\ (percentage t == 75)%Q.
Proof.
  pose proof (tracker_state 4 [OpUpdate 1 "a"; OpAddError "b failed"; OpUpdate 3 "c"])
    as (_ & _ & Hp & Hb).
  split.
  - apply Hb; [lia|]. repeat constructor; simpl; lia.
  - rewrite Hp. reflexivity.
Defined.

(** A negative total is not treated like zero. *)
Example percentage_negative_total :
  (percentage (run_ops (-2) [OpUpdate 1 ""]) == -50)%Q.
Proof. reflexivity. Qed.

End HelpersFacts.

Module NavigationFacts.
Import DataModels Navigation.

Lemma pop_snoc {A} (l : list A) x : pop (l ++ [x]) = Some (x, l).
Proof. unfold pop. rewrite reverse_snoc. by rewrite reverse_involutive. Qed.

Lemma pop_nil {A} : pop (@nil A) = None.
Proof. reflexivity. Qed.

(** C7. From any navigation state, entering a folder and then going back
    restores the state exactly: the current folder id, the current folder
    name and the whole history (so an empty history is empty again). *)
Theorem go_back_after_navigate :
  forall (nav : NavigationState) (folder_id folder_name : string),
    fst (go_back (fst (navigate_to_folder folder_id folder_name nav))) = nav
    /\ (history nav = [] ->
        history (fst (go_back (fst (navigate_to_folder folder_id folder_name nav)))) = []).
Proof.
  intros [cid cname h] fid fname. unfold navigate_to_folder, go_back. simpl.
  rewrite pop_snoc. simpl. split; [reflexivity|]. auto.
Qed.

Lemma go_back_after_navigate_witness :
  fst (go_back (fst (navigate_to_folder "X" "X" initial))) = initial
  /\ history (fst (go_back (fst (navigate_to_folder "X" "X" initial)))) = [].
Proof.
  destruct (go_back_after_navigate initial "X" "X") as [H1 H2].
  split; [exact H1 | apply H2; reflexivity].
Defined.

(** C9. With an empty history [_go_back] changes nothing (and does not even
    refresh the listing); otherwise it removes exactly the last pair pushed
    and makes it the current location, leaving the rest of the history. *)
Theorem go_back_spec :
  forall nav : NavigationState,
    (history nav = [] -> go_back nav = (nav, false))
    /\ (forall h folder_id folder_name,
          history nav = h ++ [(folder_id, folder_name)] ->
          go_back nav = (mkNav folder_id folder_name h, true)).
Proof.
  intros [cid cname h]. simpl. split.
  - intros ->. reflexivity.
  - intros h' fid fname ->. unfold go_back. simpl. by rewrite pop_snoc.
Qed.

Lemma go_back_spec_witness :
  go_back initial = (initial, false)
  /\ go_back (mkNav "f2" "Photos" [("root", "Root"); ("f1", "Docs")])
     = (mkNav "f1" "Docs" [("root", "Root")], true).
Proof.
  split.
  - apply (proj1 (go_back_spec initial)). reflexivity.
  - apply (proj2 (go_back_spec (mkNav "f2" "Photos" [("root", "Root"); ("f1", "Docs")]))
             [("root", "Root")] "f1" "Docs").
    reflexivity.
Defined.

End NavigationFacts.

(** ** Worker threads *)

Module ThreadFacts.
Import Observe.

Lemma out_eta {A} (o : Out A) : mkOut (out_res o) (out_events o) (out_calls o) = o.
Proof. by destruct o. Qed.

Lemma calls_of_app evs1 evs2 : calls_of (evs1 ++ evs2) = calls_of evs1 ++ calls_of evs2.
Proof. apply omap_app. Qed.

Lemma no_posts_filter evs :
  no_posts evs -> List.filter is_post_info evs = [] /\ List.filter is_post_error evs = [].
Proof.
  induction 1 as [|e evs [Hi He] _ [IHi IHe]]; [done|].
  simpl. by rewrite Hi, He.
Qed.

Lemma percent_monotone total i j : i <= j -> (percent i total <= percent j total)%Q.
Proof.
  intros Hij. unfold percent.
  apply Qmult_le_compat_r; [|done].
  unfold Qdiv. apply Qmult_le_compat_r.
  - rewrite <- Zle_Qle. lia.
  - destruct total as [|t]; [done|].
    apply Qinv_le_0_compat. by rewrite <- (Zle_Qle 0).
Qed.

Lemma percent_below_100 total i : i < total -> (percent i total < 100)%Q.
Proof.
  intros Hi. unfold percent, Qdiv, Qlt, Qmult, Qinv, inject_Z. simpl.
  destruct total as [|t]; [lia|]. simpl.
  rewrite Z.mul_1_r, Pos.mul_1_r.
  change (Z.pos (Pos.of_succ_nat t * 1)) with (Z.pos (Pos.of_succ_nat t) * 1)%Z.
  lia.
Qed.

End ThreadFacts.

(** ** Batch operations *)

Module BatchFacts.
Import MainWindow Observe ObserveMore BatchSpec ThreadFacts.

Section batch.
Context {Item : Type} (b : Batch Item) (w : World).

Local Abbreviation epilogue := (BatchSpec.epilogue b w).
Local Abbreviation attemptable := (BatchSpec.attemptable b).
Local Abbreviation item_report := (BatchSpec.item_report b).

(** One turn of the loop, written out. *)
Lemma batch_loop_cons total i item rest count n :
  batch_loop b total i (item :: rest) count w n =
  if cancelled w n then mkOut (Ok count) [] n
  else if has_row b item then
    match total with
    | 0 => mkOut (Raise "division by zero") [] n
    | S _ =>
        let st := EvStatus (label b item i total) (Some (percent i total)) in
        match remote w n (action b item) with
        | Raise exc => mkOut (Raise exc) [st; EvCall (action b item)] (S n)
        | Ok _ =>
            let o := batch_loop b total (S i) rest (S count) w (S n) in
            mkOut (out_res o) (st :: EvCall (action b item) :: out_events o) (out_calls o)
        end
    end
  else batch_loop b total (S i) rest count w n.
Proof.
  simpl. unfold bind at 1. simpl.
  destruct (cancelled w n); [done|].
  destruct (has_row b item); simpl.
  - destruct total as [|t]; [done|]. unfold bind; simpl.
    destruct (remote w n (action b item)); simpl; done.
  - apply out_eta.
Qed.

Lemma batch_loop_nil total i count n :
  batch_loop b total i [] count w n = mkOut (Ok count) [] n.
Proof. done. Qed.

(** The loop itself posts nothing. *)
Lemma batch_loop_no_posts total items i count n :
  no_posts (out_events (batch_loop b total i items count w n)).
Proof.
  revert i count n. induction items as [|item rest IH]; intros i count n.
  - constructor.
  - rewrite batch_loop_cons.
    destruct (cancelled w n); [constructor|].
    destruct (has_row b item); [|apply IH].
    destruct total as [|t]; [constructor|].
    destruct (remote w n (action b item)); simpl;
      repeat (constructor; [done|]); [apply IH|constructor].
Qed.

Lemma batch_thread_events items :
  run w (batch_thread b items) =
  out_events (batch_loop b (length items) 0 items 0 w 0)
  ++ epilogue (batch_loop b (length items) 0 items 0 w 0).
Proof.
  unfold run, batch_thread, finally, try_except, BatchSpec.epilogue, bind,
    is_cancelled, get_auto_refresh, emit, ret. simpl.
  destruct (batch_loop b (length items) 0 items 0 w 0) as [[count|exc] evs n]; simpl.
  - destruct (negb (cancelled w n) && (0 <? count)); simpl.
    + destruct (refreshes b); simpl.
      * destruct (auto_refresh w); simpl; rewrite <- ?app_assoc; done.
      * rewrite <- ?app_assoc; done.
    + by rewrite ?app_nil_r.
  - by rewrite <- app_assoc.
Qed.

(** Cancellation requested once [k] calls have been started. *)
Lemma batch_loop_cancelled k total items i count n :
  (forall t, cancelled w t = (k <=? t)) ->
  n <= k ->
  k - n <= length (attemptable items) ->
  (forall t item, attemptable items !! t = Some item -> n + t < k ->
     raises (remote w (n + t) (action b item)) = false) ->
  (items <> [] -> total <> 0) ->
  let o := batch_loop b total i items count w n in
  out_res o = Ok (count + (k - n))
  /\ calls_of (out_events o) = map (action b) (take (k - n) (attemptable items))
  /\ out_calls o = k.
Proof.
  intros Hc. revert i count n.
  induction items as [|item rest IH]; intros i count n Hn Hk Hok Htot.
  - simpl in *. assert (k = n) as -> by lia.
    rewrite Nat.sub_diag, Nat.add_0_r. done.
  - cbv zeta. rewrite batch_loop_cons. rewrite Hc.
    destruct (k <=? n) eqn:Hkn.
    + apply Nat.leb_le in Hkn. assert (k = n) as -> by lia.
      rewrite Nat.sub_diag, Nat.add_0_r. done.
    + apply Nat.leb_gt in Hkn. unfold BatchSpec.attemptable in *. simpl in Hk, Hok |- *.
      destruct (has_row b item) eqn:Hrow.
      * destruct total as [|t]; [by destruct Htot|].
        pose proof (Hok 0 item eq_refl) as H0. rewrite Nat.add_0_r in H0.
        specialize (H0 Hkn).
        destruct (remote w n (action b item)) as [r|exc] eqn:Hr; [|done].
        simpl in Hk.
        destruct (IH (S i) (S count) (S n)) as (IH1 & IH2 & IH3); [lia|lia| |done|].
        { intros t' it Hit Hlt. replace (S n + t') with (n + S t') by lia.
          apply Hok; [done|lia]. }
        simpl. rewrite IH1, IH2, IH3.
        replace (k - n) with (S (k - S n)) by lia. simpl.
        repeat split. f_equal; lia.
      * apply IH; [lia|lia| |].
        { intros t' it Hit Hlt. by apply Hok. }
        { intros _. apply Htot. done. }
Qed.

(** The [d]-th call from here on is the first to raise. *)
Lemma batch_loop_raises d exc failing total items i count n :
  (forall t, t <= d -> cancelled w (n + t) = false) ->
  attemptable items !! d = Some failing ->
  remote w (n + d) (action b failing) = Raise exc ->
  (forall t item, attemptable items !! t = Some item -> t < d ->
     raises (remote w (n + t) (action b item)) = false) ->
  total <> 0 ->
  let o := batch_loop b total i items count w n in
  out_res o = Raise exc
  /\ calls_of (out_events o) = map (action b) (take (S d) (attemptable items))
  /\ out_calls o = n + S d.
Proof.
  revert d i count n.
  induction items as [|item rest IH]; intros d i count n Hc Hd Hexc Hok Htot.
  - done.
  - cbv zeta. rewrite batch_loop_cons.
    pose proof (Hc 0 ltac:(lia)) as Hc0. rewrite Nat.add_0_r in Hc0. rewrite Hc0.
    unfold BatchSpec.attemptable in *. simpl in Hd, Hok |- *.
    destruct (has_row b item) eqn:Hrow.
    + destruct total as [|t]; [done|].
      destruct d as [|d].
      * simpl in Hd. injection Hd as ->. rewrite Nat.add_0_r in Hexc.
        rewrite Hexc. simpl. rewrite ?take_0. repeat split; try done; lia.
      * simpl in Hd.
        pose proof (Hok 0 item eq_refl ltac:(lia)) as H0. rewrite Nat.add_0_r in H0.
        destruct (remote w n (action b item)) as [r|exc'] eqn:Hr; [|done].
        destruct (IH d (S i) (S count) (S n)) as (IH1 & IH2 & IH3); [| done | | |done|].
        { intros t' Ht'. replace (S n + t') with (n + S t') by lia. apply Hc. lia. }
        { by replace (S n + d) with (n + S d) by lia. }
        { intros t' it Hit Hlt. replace (S n + t') with (n + S t') by lia.
          apply Hok; [done|lia]. }
        simpl. rewrite IH1, IH2, IH3. repeat split; try done; lia.
    + apply IH; done.
Qed.

Lemma reports_app evs1 evs2 : reports (evs1 ++ evs2) = reports evs1 ++ reports evs2.
Proof. apply omap_app. Qed.

Lemma reports_epilogue lo : reports (epilogue lo) = [].
Proof.
  unfold BatchSpec.epilogue. destruct (out_res lo); [|done].
  destruct (negb _ && _); [|done]. simpl.
  destruct (refreshes b && auto_refresh w); done.
Qed.

Lemma calls_of_epilogue lo : calls_of (epilogue lo) = [].
Proof.
  unfold BatchSpec.epilogue. destruct (out_res lo); [|done].
  destruct (negb _ && _); [|done]. simpl.
  destruct (refreshes b && auto_refresh w); done.
Qed.

Lemma last_epilogue evs lo : last (evs ++ epilogue lo) = Some EvPostClose.
Proof.
  unfold BatchSpec.epilogue. destruct (out_res lo).
  - destruct (negb _ && _).
    + rewrite app_comm_cons, app_assoc. apply last_snoc.
    + apply last_snoc.
  - change [EvPostError (error_title b) exc; EvPostClose]
      with ([EvPostError (error_title b) exc] ++ [EvPostClose]).
    rewrite app_assoc. apply last_snoc.
Qed.

End batch.

Lemma attemptable_upload current_folder_id file_paths :
  attemptable (upload_batch current_folder_id) file_paths = file_paths.
Proof.
  unfold BatchSpec.attemptable. induction file_paths as [|p l IH]; [done|].
  simpl. f_equal. exact IH.
Qed.

(** C1, as stated: false. The first upload raises, the second file is never
    attempted, and where two items would fail one error is reported. *)
Lemma failure_stops_the_batch :
  let evs := run failing_world (perform_file_upload "root" ["a.txt"; "b.txt"]) in
  calls_of evs = [UploadFile "a.txt" "root"]
  /\ ~ In (UploadFile "b.txt" "root") (calls_of evs)
  /\ length (List.filter is_post_error evs) = 1.
Proof.
  vm_compute. repeat split. intros [H|[]]. discriminate H.
Qed.

(** C1, amended. In every batch (upload, download or delete), with the
    cancellation flag unset until then, the first call that raises ends the
    batch: the calls made are those of the items up to and including the
    failing one, in order, and none for any later item; the thread posts
    one error message, for that exception, and no completion message, and
    ends by posting the close of the dialog. *)
Theorem first_failure_ends_batch {Item} (b : Batch Item) (w : World)
    (items : list Item) (d : nat) (failing : Item) (exc : string) :
  (forall t, t <= d -> cancelled w t = false) ->
  attemptable b items !! d = Some failing ->
  remote w d (action b failing) = Raise exc ->
  (forall t item, attemptable b items !! t = Some item -> t < d ->
     raises (remote w t (action b item)) = false) ->
  let evs := run w (batch_thread b items) in
  calls_of evs = map (action b) (take (S d) (attemptable b items))
  /\ List.filter is_post_error evs = [EvPostError (error_title b) exc]
  /\ List.filter is_post_info evs = []
  /\ last evs = Some EvPostClose.
Proof.
  intros Hc Hd Hexc Hok evs. subst evs.
  assert (Htot : length items <> 0).
  { destruct items; [done|]. simpl. lia. }
  destruct (batch_loop_raises b w d exc failing (length items) items 0 0 0)
    as (Hres & Hcalls & _); simpl; auto.
  pose proof (batch_loop_no_posts b w (length items) items 0 0 0) as Hnp.
  apply no_posts_filter in Hnp as [Hi He].
  rewrite batch_thread_events.
  repeat split.
  - rewrite calls_of_app, calls_of_epilogue, app_nil_r. exact Hcalls.
  - rewrite List.filter_app, He. unfold BatchSpec.epilogue. by rewrite Hres.
  - rewrite List.filter_app, Hi. unfold BatchSpec.epilogue. by rewrite Hres.
  - apply last_epilogue.
Qed.

Lemma first_failure_ends_batch_witness :
  let w := mkWorld (fun _ => false)
             (fun n _ => if n =? 1 then Raise "HttpError 403" else Ok "id") true in
  let evs := run w (perform_deletion (fun item => ["";"";"";"";item;"False";item;""])
                      ["f1"; "f2"; "f3"]) in
  calls_of evs = [DeleteFile "f1"; DeleteFile "f2"]
  /\ List.filter is_post_error evs = [EvPostError "Delete Error" "HttpError 403"]
  /\ List.filter is_post_info evs = []
  /\ last evs = Some EvPostClose.
Proof.
  apply (first_failure_ends_batch
           (delete_batch (fun item => ["";"";"";"";item;"False";item;""]))
           (mkWorld (fun _ => false)
              (fun n _ => if n =? 1 then Raise "HttpError 403" else Ok "id") true)
           ["f1"; "f2"; "f3"] 1 "f2" "HttpError 403").
  - reflexivity.
  - reflexivity.
  - reflexivity.
  - intros t item Ht Hlt. destruct t as [|t]; [reflexivity|lia].
Defined.

(** C4. When cancellation is requested once [k] items have been processed
    (the flag reads true from then on) and those [k] calls succeeded, the
    batch makes exactly the calls of its first [k] items, in order, and no
    other: the remaining items are skipped. Nothing is reported as failed
    (no error message is posted) and no completion message is posted; the
    thread only posts the close of the dialog. For the download and delete
    loops the items counted are those whose row passes the length guard;
    for uploads every item is. *)
Theorem cancelled_after_k {Item} (b : Batch Item) (w : World)
    (items : list Item) (k : nat) :
  (forall t, cancelled w t = (k <=? t)) ->
  k <= length (attemptable b items) ->
  (forall t item, attemptable b items !! t = Some item -> t < k ->
     raises (remote w t (action b item)) = false) ->
  let evs := run w (batch_thread b items) in
  calls_of evs = map (action b) (take k (attemptable b items))
  /\ length (calls_of evs) = k
  /\ List.filter is_post_info evs = []
  /\ List.filter is_post_error evs = []
  /\ last evs = Some EvPostClose.
Proof.
  intros Hc Hk Hok evs. subst evs.
  destruct (batch_loop_cancelled b w k (length items) items 0 0 0)
    as (Hres & Hcalls & Hn); auto; try lia.
  { intros Hne. destruct items; [done|]. simpl. lia. }
  rewrite Nat.sub_0_r in *. simpl in Hres.
  pose proof (batch_loop_no_posts b w (length items) items 0 0 0) as Hnp.
  apply no_posts_filter in Hnp as [Hi He].
  assert (Hep : epilogue b w (batch_loop b (length items) 0 items 0 w 0) = [EvPostClose]).
  { unfold BatchSpec.epilogue. rewrite Hres, Hn, Hc, Nat.leb_refl. done. }
  rewrite batch_thread_events, Hep.
  rewrite calls_of_app, !List.filter_app, Hi, He, Hcalls. simpl.
  rewrite app_nil_r. repeat split.
  - rewrite length_map, length_take. lia.
  - apply last_snoc.
Qed.

Lemma cancelled_after_k_witness :
  let w := mkWorld (fun t => 2 <=? t) (fun _ _ => Ok "id") true in
  let evs := run w (perform_file_upload "root" ["a.txt"; "b.txt"; "c.txt"; "d.txt"]) in
  calls_of evs = [UploadFile "a.txt" "root"; UploadFile "b.txt" "root"]
  /\ length (calls_of evs) = 2
  /\ List.filter is_post_info evs = []
  /\ List.filter is_post_error evs = []
  /\ last evs = Some EvPostClose.
Proof.
  apply (cancelled_after_k (upload_batch "root")
           (mkWorld (fun t => 2 <=? t) (fun _ _ => Ok "id") true)
           ["a.txt"; "b.txt"; "c.txt"; "d.txt"] 2).
  - reflexivity.
  - simpl. lia.
  - reflexivity.
Defined.

Section rows.
Context {Item : Type} (b : Batch Item) (w : World).

Lemma indexed_rows_elem i0 (items : list Item) i item :
  (i, item) ∈ indexed_rows b i0 items
  <-> i0 <= i /\ items !! (i - i0) = Some item /\ has_row b item = true.
Proof.
  revert i0. induction items as [|x rest IH]; intros i0; simpl.
  { rewrite elem_of_nil. split; [done|]. by intros (_ & ? & _). }
  assert (Hrest : (i, item) ∈ indexed_rows b (S i0) rest
                  <-> i0 < i /\ rest !! (i - S i0) = Some item /\ has_row b item = true).
  { rewrite IH. split; intros (? & ? & ?); split_and!; done || lia. }
  assert (Hstep : i0 < i -> (x :: rest) !! (i - i0) = rest !! (i - S i0)).
  { intros Hlt. by replace (i - i0) with (S (i - S i0)) by lia. }
  destruct (has_row b x) eqn:Hx.
  - rewrite elem_of_cons, Hrest. split.
    + intros [[= -> ->]|(Hlt & Hl & Hr)].
      * rewrite Nat.sub_diag. done.
      * rewrite Hstep by done. split_and!; [lia|done|done].
    + intros (Hle & Hl & Hr). destruct (decide (i = i0)) as [->|Hne].
      * rewrite Nat.sub_diag in Hl. simpl in Hl. left. congruence.
      * right. rewrite Hstep in Hl by lia. split_and!; [lia|done|done].
  - rewrite Hrest. split.
    + intros (Hlt & Hl & Hr). rewrite Hstep by done. split_and!; [lia|done|done].
    + intros (Hle & Hl & Hr). destruct (decide (i = i0)) as [->|Hne].
      * rewrite Nat.sub_diag in Hl. simpl in Hl. congruence.
      * rewrite Hstep in Hl by lia. split_and!; [lia|done|done].
Qed.

Lemma indexed_rows_sorted i0 (items : list Item) :
  StronglySorted lt (map fst (indexed_rows b i0 items)).
Proof.
  revert i0. induction items as [|x rest IH]; intros i0; simpl; [constructor|].
  destruct (has_row b x); [|apply IH].
  simpl. constructor; [apply IH|].
  rewrite Forall_forall. intros j Hj. apply list_elem_of_fmap in Hj as [[j' it] [-> Hj]].
  apply indexed_rows_elem in Hj. simpl. lia.
Qed.

Lemma indexed_rows_all i0 (items : list Item) :
  (forall item, has_row b item = true) ->
  map fst (indexed_rows b i0 items) = seq i0 (length items).
Proof.
  intros Hall. revert i0. induction items as [|x rest IH]; intros i0; simpl; [done|].
  rewrite Hall. simpl. by rewrite IH.
Qed.

Lemma indexed_rows_attemptable i0 (items : list Item) :
  map snd (indexed_rows b i0 items) = BatchSpec.attemptable b items.
Proof.
  revert i0. unfold BatchSpec.attemptable.
  induction items as [|x rest IH]; intros i0; simpl; [done|].
  destruct (has_row b x); simpl; by rewrite IH.
Qed.

(** What the loop does, in any world: it serves the rows in order, each with
    its report and then its call, up to some row; and it serves them all
    when the flag is never set and their calls return. *)
Lemma batch_loop_trace total (items : list Item) i count n :
  (items <> [] -> total <> 0) ->
  exists k,
    k <= length (indexed_rows b i items)
    /\ out_events (batch_loop b total i items count w n)
       = flat_map (item_events b total) (take k (indexed_rows b i items))
    /\ ((forall t, cancelled w t = false) ->
        (forall j p, indexed_rows b i items !! j = Some p ->
           raises (remote w (n + j) (action b p.2)) = false) ->
        k = length (indexed_rows b i items)).
Proof.
  revert i count n. induction items as [|item rest IH]; intros i count n Htot.
  { exists 0. split_and!; done. }
  rewrite batch_loop_cons.
  assert (Htot' : rest <> [] -> total <> 0) by (intros _; by apply Htot).
  destruct (cancelled w n) eqn:Hcn.
  { exists 0. split_and!; [lia|done|]. intros Hc. by rewrite Hc in Hcn. }
  simpl. destruct (has_row b item) eqn:Hrow; [|by apply IH].
  destruct total as [|t]; [by destruct Htot|].
  destruct (remote w n (action b item)) as [r|exc] eqn:Hr; simpl.
  - destruct (IH (S i) (S count) (S n) Htot') as (k & Hk & Hev & Hall).
    exists (S k). split_and!.
    + simpl. lia.
    + simpl. by rewrite Hev.
    + intros Hc Hok. simpl. f_equal. apply Hall; [done|].
      intros j p Hj. replace (S n + j) with (n + S j) by lia. by apply Hok.
  - exists 1. split_and!.
    + simpl. lia.
    + done.
    + intros _ Hok. specialize (Hok 0 (i, item) eq_refl).
      rewrite Nat.add_0_r in Hok. simpl in Hok. by rewrite Hr in Hok.
Qed.

Lemma filter_item_events total (rows : list (nat * Item)) :
  List.filter loop_event (flat_map (item_events b total) rows)
  = flat_map (item_events b total) rows.
Proof. induction rows as [|p rows IH]; simpl; [done|]. by rewrite IH. Qed.

Lemma reports_item_events total (rows : list (nat * Item)) :
  reports (flat_map (item_events b total) rows)
  = map (fun p => BatchSpec.item_report b total p.1 p.2) rows.
Proof. induction rows as [|p rows IH]; simpl; [done|]. by rewrite IH. Qed.

Lemma calls_item_events total (rows : list (nat * Item)) :
  calls_of (flat_map (item_events b total) rows) = map (fun p => action b p.2) rows.
Proof. induction rows as [|p rows IH]; simpl; [done|]. by rewrite IH. Qed.

Lemma filter_epilogue lo : List.filter loop_event (BatchSpec.epilogue b w lo) = [].
Proof.
  unfold BatchSpec.epilogue. destruct (out_res lo); [|done].
  destruct (negb _ && _); [|done]. simpl.
  destruct (refreshes b && auto_refresh w); done.
Qed.

End rows.

(** C5. In a batch of [total] items, the rows the loop has a call for (all
    the items, for an upload) are served in the order of their indices, and
    the thread does for each row it serves, and for no other, exactly this:
    it reports the status of the item with the percentage [i / total * 100],
    [i] being the index of the item in the batch, and then starts the call
    of the item.  The rows served are the first [k] rows for some [k]; they
    are all the rows when the cancellation flag is never set and the calls
    return.  Hence along the reports of one batch the percentage never
    decreases, and it stays below 100. *)
Theorem progress_reports {Item} (b : Batch Item) (w : World) (items : list Item) :
  let total := length items in
  let evs := run w (batch_thread b items) in
  let rs := reports evs in
  let rows := indexed_rows b 0 items in
  ((forall i item, (i, item) ∈ rows <-> items !! i = Some item /\ has_row b item = true)
   /\ StronglySorted lt (map fst rows)
   /\ map snd rows = attemptable b items
   /\ ((forall item, has_row b item = true) -> map fst rows = seq 0 total))
  /\ (exists k,
        k <= length rows
        /\ List.filter loop_event evs = flat_map (item_events b total) (take k rows)
        /\ rs = map (fun p => (label b p.2 p.1 total, Some (percent p.1 total)))
                  (take k rows)
        /\ calls_of evs = map (fun p => action b p.2) (take k rows)
        /\ ((forall t, cancelled w t = false) ->
            (forall j p, rows !! j = Some p ->
               raises (remote w j (action b p.2)) = false) ->
            k = length rows))
  /\ (forall k1 k2 r1 r2,
        k1 <= k2 -> rs !! k1 = Some r1 -> rs !! k2 = Some r2 ->
        exists q1 q2,
          snd r1 = Some q1 /\ snd r2 = Some q2 /\ (q1 <= q2)%Q /\ (q2 < 100)%Q).
Proof.
  intros total evs rs rows.
  assert (Hrows : forall i item,
            (i, item) ∈ rows <-> items !! i = Some item /\ has_row b item = true).
  { intros i item. subst rows. rewrite indexed_rows_elem, Nat.sub_0_r.
    split; [by intros (_ & ? & ?)|]. intros [? ?]. split_and!; [lia|done|done]. }
  pose proof (indexed_rows_sorted b 0 items) as Hsorted. fold rows in Hsorted.
  destruct (batch_loop_trace b w total items 0 0 0) as (k & Hk & Hev & Hall).
  { intros Hne. subst total. destruct items; [done|]. simpl. lia. }
  fold rows in Hk, Hev, Hall.
  assert (Hevs : evs = flat_map (item_events b total) (take k rows)
                       ++ BatchSpec.epilogue b w (batch_loop b total 0 items 0 w 0)).
  { subst evs total. by rewrite batch_thread_events, Hev. }
  assert (Hrs : rs = map (fun p => (label b p.2 p.1 total, Some (percent p.1 total)))
                       (take k rows)).
  { subst rs. rewrite Hevs, reports_app, reports_epilogue, app_nil_r.
    apply reports_item_events. }
  split_and!.
  - exact Hrows.
  - exact Hsorted.
  - apply indexed_rows_attemptable.
  - intros Hrow. subst rows total. by apply indexed_rows_all.
  - exists k. split_and!.
    + exact Hk.
    + rewrite Hevs, List.filter_app, filter_item_events, filter_epilogue.
      apply app_nil_r.
    + exact Hrs.
    + rewrite Hevs, calls_of_app, calls_of_epilogue, app_nil_r.
      apply calls_item_events.
    + exact Hall.
  - intros k1 k2 r1 r2 Hle H1 H2. rewrite Hrs in H1, H2.
    rewrite list_lookup_fmap in H1, H2.
    destruct (take k rows !! k1) as [[i1 it1]|] eqn:Hp1; [|done].
    destruct (take k rows !! k2) as [[i2 it2]|] eqn:Hp2; [|done].
    simpl in H1, H2. injection H1 as <-. injection H2 as <-.
    exists (percent i1 total), (percent i2 total). split_and!; [done|done| |].
    + apply percent_monotone.
      destruct (decide (k1 = k2)) as [->|Hne]; [by simplify_eq|].
      apply Nat.lt_le_incl.
      apply (StronglySorted_lookup lt (map fst rows) k1 k2 i1 i2); [done|lia| |].
      * rewrite list_lookup_fmap. apply lookup_take_Some in Hp1 as [-> _]. done.
      * rewrite list_lookup_fmap. apply lookup_take_Some in Hp2 as [-> _]. done.
    + apply percent_below_100. apply lookup_take_Some in Hp2 as [Hp2 _].
      apply list_elem_of_lookup_2, Hrows in Hp2 as [Hp2 _].
      subst total. by apply lookup_lt_Some in Hp2.
Qed.

(** A download of three rows of which the second has no title column: the
    first and the third are served, at 0 and two thirds of 100. *)
Lemma progress_reports_witness :
  let tree := fun item : string =>
    if String.eqb item "r1" then ["";"";"";"";"x";"False"]
    else ["";"";"";"";item;"False";item;""] in
  let w := answering (fun n => "id" +:+ pretty n) (fun _ => false) in
  map snd (reports (run w (perform_download tree ["r0"; "r1"; "r2"] "/tmp")))
  = [Some (percent 0 3); Some (percent 2 3)].
Proof.
  intros tree w.
  destruct (progress_reports (download_batch tree "/tmp") w ["r0"; "r1"; "r2"])
    as (_ & (k & Hk & _ & Hrs & _ & Hall) & _).
  assert (k = 2) as -> by (apply Hall; [done|]; intros j p _; done).
  unfold perform_download. rewrite Hrs. reflexivity.
Defined.

End BatchFacts.

(** ** Listing a folder *)

Module ListFilesFacts.
Import DataModels Drive ListingSpec.

Section sorting.
Context {A K : Type} (key : A -> K) (leb : K -> K -> bool).
Hypothesis leb_total : forall k1 k2, leb k1 k2 = true \/ leb k2 k1 = true.
Hypothesis leb_trans :
  forall k1 k2 k3, leb k1 k2 = true -> leb k2 k3 = true -> leb k1 k3 = true.

Local Abbreviation key_le := (ListingSpec.key_le key leb).

Lemma insert_by_perm x l : insert_by key leb x l ≡ₚ x :: l.
Proof.
  induction l as [|y l IH]; simpl; [done|].
  destruct (leb (key x) (key y)); [done|].
  rewrite IH. apply Permutation_swap.
Qed.

Lemma sort_by_perm l : sort_by key leb l ≡ₚ l.
Proof.
  induction l as [|x l IH]; simpl; [done|].
  unfold sort_by in *. simpl. rewrite insert_by_perm. by rewrite IH.
Qed.

Lemma insert_by_sorted x l :
  StronglySorted key_le l -> StronglySorted key_le (insert_by key leb x l).
Proof.
  induction 1 as [|y l Hs IH Hall]; simpl.
  - repeat constructor.
  - destruct (leb (key x) (key y)) eqn:Hxy.
    + constructor; [by constructor|].
      constructor; [done|].
      eapply Forall_impl; [exact Hall|]. intros z Hyz. by eapply leb_trans.
    + constructor; [done|].
      rewrite insert_by_perm. constructor; [|done].
      destruct (leb_total (key x) (key y)) as [H|H]; [congruence|done].
Qed.

Lemma sort_by_sorted l : StronglySorted key_le (sort_by key leb l).
Proof.
  induction l as [|x l IH]; [constructor|].
  unfold sort_by in *. simpl. by apply insert_by_sorted.
Qed.

Lemma insert_by_filter (P : A -> bool) x l :
  (forall y, P y = true -> P x = true -> leb (key x) (key y) = true) ->
  List.filter P (insert_by key leb x l) = List.filter P (x :: l).
Proof.
  intros HP. induction l as [|y l IH]; [done|].
  simpl. destruct (leb (key x) (key y)) eqn:Hxy; [done|].
  simpl in *. rewrite IH.
  destruct (P x) eqn:Hx; [|done]. destruct (P y) eqn:Hy; [|done].
  rewrite HP in Hxy; done.
Qed.

(** The sort is stable: items that are not told apart by their keys keep
    the order they had. *)
Lemma sort_by_stable (P : A -> bool) l :
  (forall x y, P x = true -> P y = true -> leb (key x) (key y) = true) ->
  List.filter P (sort_by key leb l) = List.filter P l.
Proof.
  intros HP. induction l as [|x l IH]; [done|].
  unfold sort_by in *. simpl foldr. rewrite insert_by_filter by eauto.
  simpl. by rewrite IH.
Qed.

End sorting.

Lemma key_leb_total k1 k2 : key_leb k1 k2 = true \/ key_leb k2 k1 = true.
Proof.
  destruct k1 as [[] s1], k2 as [[] s2]; unfold key_leb; simpl; auto;
    apply String.leb_total.
Qed.

Lemma string_leb_trans s1 s2 s3 :
  String.leb s1 s2 = true -> String.leb s2 s3 = true -> String.leb s1 s3 = true.
Proof.
  intros H1 H2. apply Is_true_true. apply Is_true_true in H1, H2.
  change (String.le s1 s3). by trans s2.
Qed.

Lemma key_leb_trans k1 k2 k3 :
  key_leb k1 k2 = true -> key_leb k2 k3 = true -> key_leb k1 k3 = true.
Proof.
  destruct k1 as [[] s1], k2 as [[] s2], k3 as [[] s3]; unfold key_leb; simpl;
    try done; apply string_leb_trans.
Qed.

Lemma kept_valid py parent_id f item :
  kept py parent_id f = Some item -> id item <> "" /\ title item <> "".
Proof.
  unfold kept, convert.
  destruct (f_id f) as [i|]; [|done]. destruct (f_title f) as [t|]; [|done].
  destruct (match f_fileSize f with Some s => int_of_str py s | None => Some 0%Z end);
    [|done].
  unfold new_FileItem, post_init. simpl.
  destruct (truthy i) eqn:Hi; [|done]. destruct (truthy t) eqn:Ht; [|done].
  simpl. intros [= <-]. simpl. by rewrite <- !truthy_true.
Qed.

Lemma kept_empty py parent_id f :
  f_id f = Some "" \/ f_title f = Some "" -> kept py parent_id f = None.
Proof.
  intros H. destruct (kept py parent_id f) as [item|] eqn:Hk; [|done].
  pose proof (kept_valid _ _ _ _ Hk) as [Hi Ht].
  unfold kept, convert in Hk.
  destruct (f_id f) as [i|]; [|done]. destruct (f_title f) as [t|]; [|done].
  destruct (match f_fileSize f with Some s => int_of_str py s | None => Some 0%Z end);
    [|done].
  unfold new_FileItem, post_init in Hk. simpl in Hk.
  destruct (truthy i) eqn:Hti; [|done]. destruct (truthy t) eqn:Htt; [|done].
  simpl in Hk. injection Hk as <-. simpl in *.
  destruct H as [[= ->]|[= ->]]; done.
Qed.

(** An entry with both keys is converted or skipped, never fatal. *)
Lemma convert_not_fatal py parent_id f :
  has_id_title f ->
  match convert py parent_id f with
  | Converted item => kept py parent_id f = Some item
  | ValueError _ => kept py parent_id f = None
  | OtherError _ => False
  end.
Proof.
  intros [[i Hi] [t Ht]]. unfold kept, convert. rewrite Hi, Ht.
  destruct (match f_fileSize f with Some s => int_of_str py s | None => Some 0%Z end);
    [|done].
  destruct (new_FileItem _ _ _ _ _ _ _); done.
Qed.

Lemma collect_kept py parent_id file_list :
  Forall has_id_title file_list ->
  exists warnings,
    collect py parent_id file_list = Ok (omap (kept py parent_id) file_list, warnings)
    /\ length (omap (kept py parent_id) file_list) + length warnings = length file_list.
Proof.
  induction 1 as [|f l Hf _ (ws & IH & Hlen)]; simpl.
  - by exists [].
  - pose proof (convert_not_fatal py parent_id f Hf) as Hc.
    destruct (convert py parent_id f) as [item|msg|msg]; [| |done].
    + rewrite Hc, IH. exists ws. split; [done|]. simpl. f_equal. exact Hlen.
    + rewrite Hc, IH. eexists. split; [done|]. simpl.
      rewrite Nat.add_succ_r. f_equal. exact Hlen.
Qed.

(** A missing key ends the listing with the exception. *)
Example list_files_missing_title py :
  list_files py (Ok [mkDriveFile (Some "") None None None None]) "root"
  = Raise "KeyError: 'title'".
Proof. reflexivity. Qed.

(** The code keeps exactly the entries that are to be shown, as they are to
    be shown. *)
Lemma kept_shown py parent_id f : kept py parent_id f = shown py parent_id f.
Proof.
  unfold kept, convert, shown.
  destruct (f_id f) as [i|]; [|done]. destruct (f_title f) as [t|]; [|done].
  unfold new_FileItem, post_init. simpl.
  assert (Hmime : match f_mimeType f with
                  | Some m => String.eqb m folder_mime
                  | None => false
                  end = bool_decide (f_mimeType f = Some folder_mime)).
  { destruct (f_mimeType f) as [m|]; [|done].
    destruct (String.eqb_spec m folder_mime) as [->|Hne].
    - by rewrite bool_decide_eq_true_2.
    - rewrite bool_decide_eq_false_2; [done|]. by intros [= ->]. }
  rewrite Hmime.
  destruct (truthy i) eqn:Hi, (truthy t) eqn:Ht.
  - apply truthy_true in Hi, Ht.
    rewrite (bool_decide_eq_true_2 (i <> "" /\ t <> "")) by done.
    destruct (f_fileSize f) as [sz|]; [|done]. by destruct (int_of_str py sz).
  - apply truthy_false in Ht as ->.
    rewrite (bool_decide_eq_false_2 (i <> "" /\ "" <> "")) by (by intros [_ []]).
    destruct (f_fileSize f) as [sz|]; [|done]. by destruct (int_of_str py sz).
  - apply truthy_false in Hi as ->.
    rewrite (bool_decide_eq_false_2 ("" <> "" /\ t <> "")) by (by intros [[] _]).
    destruct (f_fileSize f) as [sz|]; [|done]. by destruct (int_of_str py sz).
  - apply truthy_false in Hi as ->.
    rewrite (bool_decide_eq_false_2 ("" <> "" /\ t <> "")) by (by intros [[] _]).
    destruct (f_fileSize f) as [sz|]; [|done]. by destruct (int_of_str py sz).
Qed.

Lemma omap_kept_shown py parent_id (file_list : list DriveFile) :
  omap (kept py parent_id) file_list = omap (shown py parent_id) file_list.
Proof.
  induction file_list as [|f l IH]; [done|].
  cbn. rewrite kept_shown. destruct (shown py parent_id f); [f_equal|]; exact IH.
Qed.

(** C10, as stated: false. An entry whose id is empty can fail the whole
    listing: here the entry has no title key, the lookup of the title raises
    before the item is validated, and the listing raises instead of skipping
    the entry. *)
Lemma list_files_fails_on_empty_id :
  ~ (forall py parent_id file_list f,
       f ∈ file_list -> f_id f = Some "" \/ f_title f = Some "" ->
       raises (list_files py (Ok file_list) parent_id) = false).
Proof.
  intros H.
  specialize (H ascii_py "root" [mkDriveFile (Some "") None None None None]
                (mkDriveFile (Some "") None None None None)).
  assert (Hr : raises (list_files ascii_py
                         (Ok [mkDriveFile (Some "") None None None None]) "root") = false).
  { apply H; [apply list_elem_of_here|by left]. }
  vm_compute in Hr. discriminate Hr.
Qed.

(** C10, amended. For a listing whose entries all carry an id and a title
    key, [list_files] returns.  The items returned are exactly those of the
    entries to be shown ([shown]: id and title not empty, size absent or an
    integer), one for each and with that entry's fields, arranged so that
    every folder comes before every non-folder and, among folders and among
    non-folders, titles are in the order of their lower-cased forms.  An
    entry whose id or title is the empty string yields no item: it is
    skipped with a warning and the listing does not fail, so that no item
    returned has an empty id or title; each entry is either returned or
    reported in one warning. *)
Theorem list_files_sorted (py : Builtins) (parent_id : string)
    (file_list : list DriveFile) :
  Forall has_id_title file_list ->
  exists items warnings,
    list_files py (Ok file_list) parent_id = Ok (items, warnings)
    /\ Permutation items (omap (shown py parent_id) file_list)
    /\ (forall f item, f ∈ file_list -> shown py parent_id f = Some item -> item ∈ items)
    /\ (forall item, item ∈ items ->
          exists f, f ∈ file_list /\ shown py parent_id f = Some item)
    /\ (forall i j a b,
          i < j -> items !! i = Some a -> items !! j = Some b ->
          (is_folder b = true -> is_folder a = true)
          /\ (is_folder a = is_folder b ->
              String.leb (str_lower py (title a)) (str_lower py (title b)) = true))
    /\ (forall f, f ∈ file_list -> f_id f = Some "" \/ f_title f = Some "" ->
          shown py parent_id f = None)
    /\ (forall item, item ∈ items -> id item <> "" /\ title item <> "")
    /\ length items + length warnings = length file_list.
Proof.
  intros Hkeys.
  destruct (collect_kept py parent_id file_list Hkeys) as (ws & Hc & Hlen).
  assert (Hks : omap (kept py parent_id) file_list = omap (shown py parent_id) file_list).
  { apply omap_kept_shown. }
  exists (sort_by (sort_key py) key_leb (omap (kept py parent_id) file_list)), ws.
  unfold list_files. rewrite Hc.
  pose proof (sort_by_perm (sort_key py) key_leb (omap (kept py parent_id) file_list))
    as Hperm.
  pose proof (sort_by_sorted (sort_key py) key_leb key_leb_total key_leb_trans
                (omap (kept py parent_id) file_list)) as Hsorted.
  split_and!.
  - done.
  - by rewrite Hperm, Hks.
  - intros f item Hf Hs. rewrite Hperm, Hks. apply list_elem_of_omap. eauto.
  - intros item Hitem. rewrite Hperm, Hks in Hitem.
    by apply list_elem_of_omap in Hitem.
  - intros i j a b Hij Ha Hb.
    pose proof (StronglySorted_lookup _ _ i j a b Hsorted Hij Ha Hb) as Hle.
    unfold ListingSpec.key_le, key_leb, sort_key in Hle. simpl in Hle. split.
    + intros Hfb. rewrite Hfb in Hle. by destruct (is_folder a).
    + intros Hab. rewrite Hab in Hle. by destruct (is_folder b).
  - intros f _ Hf. rewrite <- kept_shown. by apply kept_empty.
  - intros item Hitem. rewrite Hperm in Hitem.
    apply list_elem_of_omap in Hitem as (f & _ & Hk). by eapply kept_valid.
  - by rewrite Hperm.
Qed.

Lemma list_files_sorted_witness :
  exists items warnings,
    list_files ascii_py (Ok sample_listing) "root" = Ok (items, warnings)
    /\ map id items = ["2"; "4"; "1"]
    /\ length warnings = 2.
Proof.
  destruct (list_files_sorted ascii_py "root" sample_listing) as (items & ws & H & _).
  - repeat constructor; simpl; eauto.
  - exists items, ws. split; [exact H|].
    vm_compute in H. injection H as <- <-. split; reflexivity.
Defined.

End ListFilesFacts.

(** ** The rules of the triples *)

Module ThreadLogic.
Import Observe ThreadFacts.

Section logic.
Context (w : World).

Local Abbreviation triple := (Observe.triple w).

Lemma triple_ret {A} (P : list Call -> Prop) (a : A) (Q : Result A -> list Call -> Prop) :
  (forall cs, P cs -> Q (Ok a) cs) -> triple P (ret a) Q.
Proof.
  intros H pre HP. simpl. rewrite app_nil_r. split; [done|]. by apply H.
Qed.

Lemma triple_raise {A} (P : list Call -> Prop) exc (Q : Result A -> list Call -> Prop) :
  (forall cs, P cs -> Q (Raise exc) cs) -> triple P (raise exc) Q.
Proof.
  intros H pre HP. simpl. rewrite app_nil_r. split; [done|]. by apply H.
Qed.

Lemma triple_bind {A B} P (m : Thread A) R (k : A -> Thread B) Q :
  triple P m R ->
  (forall a, triple (R (Ok a)) (k a) Q) ->
  (forall exc cs, R (Raise exc) cs -> Q (Raise exc) cs) ->
  triple P (bind m k) Q.
Proof.
  intros Hm Hk Hexc pre HP. destruct (Hm pre HP) as [Hn HR].
  unfold bind. destruct (m w (length pre)) as [[a|exc] evs n1]; simpl in *.
  - destruct (Hk a _ HR) as [Hn' HQ]. rewrite <- Hn in Hn', HQ.
    rewrite calls_of_app, app_assoc. done.
  - split; [done|]. by apply Hexc.
Qed.

Lemma triple_call P (c : Call) (Q : Result string -> list Call -> Prop) :
  (forall pre, P pre -> Q (remote w (length pre) c) (pre ++ [c])) ->
  triple P (drive_call c) Q.
Proof.
  intros H pre HP. simpl. split; [|by apply H].
  rewrite length_app. simpl. lia.
Qed.

Lemma triple_emit P (e : Event) (Q : Result unit -> list Call -> Prop) :
  call_of e = None ->
  (forall cs, P cs -> Q (Ok tt) cs) -> triple P (emit e) Q.
Proof.
  intros He H pre HP. unfold emit, calls_of. simpl. rewrite He. simpl.
  rewrite app_nil_r. split; [done|]. by apply H.
Qed.

Lemma triple_post {A} P (m : Thread A) (Q Q' : Result A -> list Call -> Prop) :
  triple P m Q -> (forall r cs, Q r cs -> Q' r cs) -> triple P m Q'.
Proof. intros Hm HQ pre HP. destruct (Hm pre HP). split; [done|]. by apply HQ. Qed.

Lemma triple_pre {A} (P P' : list Call -> Prop) (m : Thread A) Q :
  triple P m Q -> (forall cs, P' cs -> P cs) -> triple P' m Q.
Proof. intros Hm HP pre HP'. apply Hm. by apply HP. Qed.

(** Facts that do not depend on the calls may be taken out. *)
Lemma triple_pure {A} (phi : Prop) P (m : Thread A) Q :
  (forall cs, P cs -> phi) -> (phi -> triple P m Q) -> triple P m Q.
Proof. intros Hphi Hm pre HP. apply Hm; eauto. Qed.

(** Two threads that behave alike satisfy the same triples. *)
Lemma triple_ext {A} P (m m' : Thread A) Q :
  (forall n, m w n = m' w n) -> triple P m Q -> triple P m' Q.
Proof. intros Heq Hm pre HP. rewrite <- Heq. by apply Hm. Qed.

End logic.

Lemma bind_assoc {A B C} (m : Thread A) (f : A -> Thread B) (g : B -> Thread C) w n :
  bind (bind m f) g w n = bind m (fun a => bind (f a) g) w n.
Proof.
  unfold bind. destruct (m w n) as [[a|exc] evs n1]; simpl; [|done].
  destruct (f a w n1) as [[b|exc] evs1 n2]; simpl; [|done].
  destruct (g b w n2) as [r evs2 n3]; simpl. by rewrite app_assoc.
Qed.

Lemma bind_ext {A B} (m : Thread A) (f g : A -> Thread B) w n :
  (forall a n', f a w n' = g a w n') -> bind m f w n = bind m g w n.
Proof.
  intros H. unfold bind. destruct (m w n) as [[a|exc] evs n1]; simpl; [|done].
  by rewrite H.
Qed.

Lemma bind_ret_l {A B} (a : A) (k : A -> Thread B) w n : bind (ret a) k w n = k a w n.
Proof. unfold bind, ret. simpl. apply out_eta. Qed.

End ThreadLogic.

(** ** Recursive folder upload *)

Module FolderUploadFacts.
Import Path Drive MainWindow Observe FolderSpec ThreadFacts ThreadLogic.

(** Induction on a directory tree, with the hypothesis for every
    subdirectory. *)
Lemma LocalDir_ind (P : LocalDir -> Prop) :
  (forall walked subdirs files,
      Forall (fun s => P (snd s)) subdirs -> P (Dir walked subdirs files)) ->
  forall d, P d.
Proof.
  intros step. fix IH 1. intros [walked subdirs files]. apply step.
  induction subdirs as [|[name sub] l IHl]; constructor; [apply IH|exact IHl].
Qed.

Lemma status_only_update_status : status_only (Some update_status).
Proof. intros f msg w n [= <-]. done. Qed.

Lemma status_only_None : status_only None.
Proof. intros f msg w n [=]. Qed.

Section upload.
Context (w : World) (cb : option (string -> Thread unit)) (local_folder : string).
Context (parent_id : string).
Hypothesis cb_quiet : status_only cb.

Local Abbreviation folder_of := (FolderSpec.folder_of w local_folder parent_id).
Local Abbreviation call_ok := (FolderSpec.call_ok w local_folder parent_id).
Local Abbreviation calls_ok := (FolderSpec.calls_ok w local_folder parent_id).
Local Abbreviation map_ok := (FolderSpec.map_ok w local_folder parent_id).
Local Abbreviation walk_post := (FolderSpec.walk_post w local_folder parent_id).
Local Abbreviation entry_steps := (FolderSpec.entry_steps local_folder).
Local Abbreviation planned_steps := (FolderSpec.planned_steps local_folder).

Lemma folder_of_mono cs more p i id :
  folder_of cs p i id -> folder_of (cs ++ more) p i id.
Proof.
  induction 1 as [id H0 Hr|p i pid d j id _ IH Hij Hj Hr].
  - constructor; [|done]. by apply lookup_app_l_Some.
  - econstructor; [exact IH|done| |done]. by apply lookup_app_l_Some.
Qed.

Lemma folder_of_lt cs p i id : folder_of cs p i id -> i < length cs.
Proof. destruct 1; by eapply lookup_lt_Some. Qed.

Lemma call_ok_mono E cs more j c : call_ok E cs j c -> call_ok E (cs ++ more) j c.
Proof.
  destruct c as [d pid|path pid| |]; simpl; try done.
  - intros [H|(p & dirs & files & i & ? & ? & ? & Hf)]; [by left|right].
    exists p, dirs, files, i. eauto using folder_of_mono.
  - intros (p & dirs & files & f & i & ? & ? & ? & ? & Hf).
    exists p, dirs, files, f, i. eauto 10 using folder_of_mono.
Qed.

Lemma calls_ok_snoc E cs c :
  calls_ok E cs -> call_ok E (cs ++ [c]) (length cs) c -> calls_ok E (cs ++ [c]).
Proof.
  intros Hcs Hc j c' Hj.
  destruct (decide (j < length cs)) as [Hlt|Hge].
  - rewrite lookup_app_l in Hj by done. apply call_ok_mono. by apply Hcs.
  - pose proof (lookup_lt_Some _ _ _ Hj) as Hlt. rewrite length_app in Hlt. simpl in Hlt.
    assert (j = length cs) as -> by lia.
    rewrite list_lookup_middle in Hj by done. by injection Hj as <-.
Qed.

Lemma map_ok_mono cs more m : map_ok cs m -> map_ok (cs ++ more) m.
Proof. intros H p id Hp. destruct (H p id Hp) as [i Hi]. eauto using folder_of_mono. Qed.

Lemma triple_notify msg P (Q : Result unit -> list Call -> Prop) :
  (forall r cs, P cs -> Q r cs) -> triple w P (notify cb msg) Q.
Proof.
  intros H pre HP. unfold notify. destruct cb as [f|] eqn:Hcb.
  - destruct (cb_quiet f msg w (length pre) eq_refl) as [Hn Hc].
    simpl. rewrite Hc, app_nil_r. split; [done|]. by apply H.
  - simpl. rewrite app_nil_r. split; [done|]. by apply H.
Qed.

Section loops.
Context (E : list WalkEntry).

Lemma create_subdirs_triple rel pid dirs0 files0 dirs m :
  (rel, dirs0, files0) ∈ E ->
  dirs ⊆ dirs0 ->
  triple w
    (fun cs => calls_ok E cs /\ map_ok cs m /\ exists i, folder_of cs rel i pid)
    (create_subdirs cb rel pid dirs m)
    (fun r cs =>
       calls_ok E cs
       /\ match r with
          | Ok m' =>
              map_ok cs m' /\ grows m m'
              /\ (forall d, d ∈ dirs -> is_Some (m' !! (rel ++ [d])))
              /\ exists i, folder_of cs rel i pid
          | Raise _ => True
          end).
Proof.
  intros HE. revert m. induction dirs as [|d rest IH]; intros m Hsub.
  - apply triple_ret. intros cs (Hc & Hm & Hf).
    split_and!; [done|done|by intros p Hp| |done].
    intros d Hd. by apply elem_of_nil in Hd.
  - simpl.
    eapply triple_bind with
      (R := fun _ cs => calls_ok E cs /\ map_ok cs m /\ exists i, folder_of cs rel i pid);
      [by apply triple_notify | | by intros exc cs (Hc & _)].
    intros _.
    eapply triple_bind with
      (R := fun r cs =>
         calls_ok E cs
         /\ match r with
            | Ok id => map_ok cs (<[rel ++ [d] := id]> m)
                       /\ exists i, folder_of cs rel i pid
            | Raise _ => True
            end).
    + apply triple_call. intros pre (Hc & Hm & i & Hf).
      assert (Hcall : calls_ok E (pre ++ [CreateFolder d pid])).
      { apply calls_ok_snoc; [done|]. simpl. right.
        exists rel, dirs0, files0, i. repeat split; try done.
        - apply Hsub. by left.
        - by eapply folder_of_lt.
        - by apply folder_of_mono. }
      split; [done|].
      destruct (remote w (length pre) (CreateFolder d pid)) as [id|exc] eqn:Hr; [|done].
      split; [|exists i; by apply folder_of_mono].
      intros p id' Hp. destruct (decide (p = rel ++ [d])) as [->|Hne].
      * rewrite lookup_insert_eq in Hp. injection Hp as <-.
        exists (length pre). eapply folder_sub.
        -- apply folder_of_mono. exact Hf.
        -- by eapply folder_of_lt.
        -- by rewrite list_lookup_middle.
        -- done.
      * rewrite lookup_insert_ne in Hp by done.
        destruct (Hm p id' Hp) as [i' Hi']. exists i'. by apply folder_of_mono.
    + intros id. eapply triple_post; [eapply triple_pre|].
      * apply (IH (<[rel ++ [d] := id]> m)).
        intros x Hx. apply Hsub. by right.
      * intros cs (Hc & Hm & Hf). done.
      * intros [m'|exc] cs (Hc & Hpost); [|done].
        destruct Hpost as (Hm' & Hg & Hd & Hf).
        repeat split; try done.
        -- intros p Hp. apply Hg.
           destruct (decide (rel ++ [d] = p)) as [<-|Hne].
           ++ rewrite lookup_insert_eq. eauto.
           ++ by rewrite lookup_insert_ne.
        -- intros d' Hd'. apply elem_of_cons in Hd' as [->|Hd']; [|by apply Hd].
           apply Hg. rewrite lookup_insert_eq. eauto.
    + intros exc cs (Hc & _). done.
Qed.

Lemma upload_files_triple rel pid dirs0 files0 files m :
  (rel, dirs0, files0) ∈ E ->
  files ⊆ files0 ->
  triple w
    (fun cs => calls_ok E cs /\ map_ok cs m /\ exists i, folder_of cs rel i pid)
    (upload_files cb local_folder rel pid files)
    (fun r cs => calls_ok E cs /\ map_ok cs m).
Proof.
  intros HE. induction files as [|f rest IH]; intros Hsub.
  - apply triple_ret. intros cs (Hc & Hm & Hf). done.
  - simpl.
    eapply triple_bind with
      (R := fun _ cs => calls_ok E cs /\ map_ok cs m /\ exists i, folder_of cs rel i pid);
      [by apply triple_notify | | by intros exc cs (Hc & Hm & _)].
    intros _.
    eapply triple_bind with
      (R := fun r cs =>
         calls_ok E cs /\ map_ok cs m /\ exists i, folder_of cs rel i pid).
    + apply triple_call. intros pre (Hc & Hm & i & Hf).
      repeat split.
      * apply calls_ok_snoc; [done|]. simpl.
        exists rel, dirs0, files0, f, i. repeat split; try done.
        -- apply Hsub. by left.
        -- by eapply folder_of_lt.
        -- by apply folder_of_mono.
      * by apply map_ok_mono.
      * exists i. by apply folder_of_mono.
    + intros _. apply IH. intros x Hx. apply Hsub. by right.
    + intros exc cs (Hc & Hm & _). done.
Qed.

Lemma walk_loop_app folder_id l1 l2 m n :
  walk_loop cb local_folder folder_id (l1 ++ l2) m w n =
  bind (walk_loop cb local_folder folder_id l1 m)
       (walk_loop cb local_folder folder_id l2) w n.
Proof.
  revert m n. induction l1 as [|[[rel dirs] files] l1 IH]; intros m n.
  - simpl. by rewrite bind_ret_l.
  - simpl. rewrite bind_assoc. apply bind_ext. intros m' n'.
    rewrite bind_assoc. apply bind_ext. intros _ n''. apply IH.
Qed.

Lemma grows_trans m1 m2 m3 : grows m1 m2 -> grows m2 m3 -> grows m1 m3.
Proof. intros H12 H23 p Hp. by apply H23, H12. Qed.

Lemma walk_post_ret m cs : calls_ok E cs /\ map_ok cs m -> walk_post E m (Ok m) cs.
Proof. intros [Hc Hm]. split; [done|]. split; [done|]. by intros p Hp. Qed.

Lemma walk_post_raise m exc cs : calls_ok E cs -> walk_post E m (Raise exc) cs.
Proof. by split. Qed.

Lemma walk_post_grows m1 m2 r cs : grows m1 m2 -> walk_post E m2 r cs -> walk_post E m1 r cs.
Proof.
  intros Hg [Hc Hr]. split; [done|]. destruct r as [m3|exc]; [|done].
  destruct Hr as [Hm Hg']. split; [done|]. by eapply grows_trans.
Qed.

Lemma walk_tree_triple folder_id tree :
  forall rel m,
    (forall e, e ∈ os_walk rel tree -> e ∈ E) ->
    is_Some (m !! rel) ->
    triple w (fun cs => calls_ok E cs /\ map_ok cs m)
      (walk_loop cb local_folder folder_id (os_walk rel tree) m)
      (walk_post E m).
Proof.
  induction tree as [walked subdirs files IHsub] using LocalDir_ind.
  intros rel m HE [pid Hpid]. simpl in *.
  destruct walked; [|apply triple_ret; intros cs Hcs; by apply walk_post_ret].
  simpl. rewrite Hpid. simpl.
  assert (Hin : (rel, subdirs.*1, files) ∈ E) by (apply HE; by left).
  eapply triple_bind;
    [ eapply triple_pre; [by eapply create_subdirs_triple|]
    | | intros exc cs (Hc & _); by apply walk_post_raise ].
  { intros cs (Hc & Hm). split_and!; try done. by apply Hm. }
  intros m1. simpl.
  eapply triple_bind with
    (R := fun r cs => calls_ok E cs /\ map_ok cs m1 /\ grows m m1
                      /\ (forall d, d ∈ subdirs.*1 -> is_Some (m1 !! (rel ++ [d]))));
    [ | | intros exc cs (Hc & _); by apply walk_post_raise ].
  { intros pre (Hc & Hm1 & Hg & Hd & Hf).
    destruct (upload_files_triple rel pid (subdirs.*1) files files m1 Hin ltac:(done) pre)
      as [Hn [Hc' Hm1']]; [done|].
    split_and!; done. }
  intros _.
  (* the subdirectories, one after the other *)
  assert (Hforest : forall l m2,
             l ⊆ subdirs ->
             (forall d, d ∈ l.*1 -> is_Some (m2 !! (rel ++ [d]))) ->
             triple w (fun cs => calls_ok E cs /\ map_ok cs m2)
               (walk_loop cb local_folder folder_id
                  (flat_map (fun s => match s with
                                      | (name, sub) => os_walk (rel ++ [name]) sub
                                      end) l) m2)
               (walk_post E m2)).
  { induction l as [|[name sub] l IHl]; intros m2 Hl Hd.
    - apply triple_ret. intros cs Hcs. by apply walk_post_ret.
    - simpl. eapply triple_ext; [intros n; symmetry; apply walk_loop_app|].
      assert (Hsub : (name, sub) ∈ subdirs) by (apply Hl; by left).
      eapply triple_bind with (R := walk_post E m2);
        [ | | intros exc cs [Hc _]; by apply walk_post_raise ].
      + rewrite Forall_forall in IHsub. apply (IHsub (name, sub) Hsub).
        * intros e He. apply HE. right. apply list_elem_of_In, in_flat_map.
          exists (name, sub). split; by apply list_elem_of_In.
        * apply Hd. simpl. by left.
      + intros m3. simpl.
        intros pre Hpre. unfold FolderSpec.walk_post in Hpre. destruct Hpre as (Hc & Hm3 & Hg).
        destruct (IHl m3) with (pre := pre) as [Hn Hpost].
        * intros x Hx. apply Hl. by right.
        * intros d Hd'. apply Hg, Hd. simpl. by right.
        * done.
        * split; [done|]. by eapply walk_post_grows. }
  apply triple_pure with
    (phi := grows m m1 /\ (forall d, d ∈ subdirs.*1 -> is_Some (m1 !! (rel ++ [d])))).
  { intros cs (Hc & Hm1 & Hg & Hd). done. }
  intros [Hg Hd].
  eapply triple_post; [eapply triple_pre; [by apply (Hforest subdirs m1)|]|].
  - intros cs (Hc & Hm1 & _). done.
  - intros r cs Hpost. by eapply walk_post_grows.
Qed.

End loops.

(** Every call of a folder upload is the right one, whatever the service
    answers and wherever the upload stops. *)
Lemma upload_folder_calls_ok tree :
  triple w (fun cs => cs = [])
    (upload_folder_recursive cb local_folder (Some tree) parent_id)
    (fun _ cs => calls_ok (os_walk [] tree) cs).
Proof.
  unfold upload_folder_recursive, create_folder.
  set (top := CreateFolder (basename local_folder) parent_id).
  eapply triple_bind with
    (R := fun r cs =>
       calls_ok (os_walk [] tree) cs
       /\ match r with
          | Ok folder_id => map_ok cs {[ [] := folder_id ]}
          | Raise _ => True
          end);
    [ | | by intros exc cs [Hc _] ].
  - apply triple_call. intros pre ->. simpl.
    assert (Hc : calls_ok (os_walk [] tree) [top]).
    { intros [|j] c Hj; [|done]. injection Hj as <-. simpl. left. done. }
    split; [done|]. destruct (remote w 0 top) as [folder_id|exc] eqn:Hr; [|done].
    intros p id Hp. apply lookup_singleton_Some in Hp as [<- <-].
    exists 0. by constructor.
  - intros folder_id. simpl.
    eapply triple_bind with (R := walk_post (os_walk [] tree) {[ [] := folder_id ]});
      [ | | by intros exc cs [Hc _] ].
    + apply walk_tree_triple; [done|]. rewrite lookup_singleton_eq. eauto.
    + intros m'. apply triple_ret. by intros cs [Hc _].
Qed.

Lemma create_subdirs_steps rel pid dirs m steps :
  triple w (fun cs => Forall2 performs cs steps)
    (create_subdirs cb rel pid dirs m)
    (follows (steps ++ map MkDir dirs)).
Proof.
  revert m steps. induction dirs as [|d rest IH]; intros m steps.
  - apply triple_ret. intros cs Hcs _. by rewrite app_nil_r.
  - simpl.
    eapply triple_bind with (R := fun _ cs => Forall2 performs cs steps);
      [by apply triple_notify | | by intros exc cs _ [=] ].
    intros _.
    eapply triple_bind with
      (R := fun _ cs => Forall2 performs cs (steps ++ [MkDir d]));
      [ | | by intros exc cs _ [=] ].
    + apply triple_call. intros pre Hpre. apply Forall2_app; [done|].
      constructor; [|constructor]. by exists pid.
    + intros id. eapply triple_post; [apply IH|].
      intros r cs H Hr. rewrite <- app_assoc in H. by apply H.
Qed.

Lemma upload_files_steps rel pid files steps :
  triple w (fun cs => Forall2 performs cs steps)
    (upload_files cb local_folder rel pid files)
    (follows (steps ++ map (fun f => Put (join (root_of local_folder rel) f)) files)).
Proof.
  revert steps. induction files as [|f rest IH]; intros steps.
  - apply triple_ret. intros cs Hcs _. by rewrite app_nil_r.
  - simpl.
    eapply triple_bind with (R := fun _ cs => Forall2 performs cs steps);
      [by apply triple_notify | | by intros exc cs _ [=] ].
    intros _.
    eapply triple_bind with
      (R := fun _ cs =>
         Forall2 performs cs (steps ++ [Put (join (root_of local_folder rel) f)]));
      [ | | by intros exc cs _ [=] ].
    + apply triple_call. intros pre Hpre. apply Forall2_app; [done|].
      constructor; [|constructor]. by exists pid.
    + intros _. eapply triple_post; [apply IH|].
      intros r cs H Hr. rewrite <- app_assoc in H. by apply H.
Qed.

Lemma walk_loop_steps folder_id entries m steps :
  triple w (fun cs => Forall2 performs cs steps)
    (walk_loop cb local_folder folder_id entries m)
    (follows (steps ++ flat_map entry_steps entries)).
Proof.
  revert m steps. induction entries as [|[[rel dirs] files] rest IH]; intros m steps.
  - apply triple_ret. intros cs Hcs _. by rewrite app_nil_r.
  - simpl.
    eapply triple_bind; [apply create_subdirs_steps | | by intros exc cs _ [=] ].
    intros m'. simpl.
    eapply triple_bind;
      [ eapply triple_pre;
        [apply (upload_files_steps rel _ files (steps ++ map MkDir dirs))|]
      | | by intros exc cs _ [=] ].
    { intros cs H. by apply H. }
    intros u. simpl.
    eapply triple_post; [eapply triple_pre; [apply (IH m' (steps ++ entry_steps (rel, dirs, files)))|]|].
    + intros cs H. simpl. rewrite app_assoc. by apply H.
    + intros r cs H Hr. rewrite <- !app_assoc in H. by apply H.
Qed.

Lemma upload_folder_steps tree :
  triple w (fun cs => cs = [])
    (upload_folder_recursive cb local_folder (Some tree) parent_id)
    (follows (planned_steps tree)).
Proof.
  unfold upload_folder_recursive, create_folder, FolderSpec.planned_steps.
  eapply triple_bind with
    (R := fun _ cs => Forall2 performs cs [MkDir (basename local_folder)]);
    [ | | by intros exc cs _ [=] ].
  - apply triple_call. intros pre ->. simpl.
    constructor; [|constructor]. by exists parent_id.
  - intros folder_id. simpl.
    eapply triple_bind; [apply walk_loop_steps | | by intros exc cs _ [=] ].
    intros m'. apply triple_ret. intros cs H _. by apply H.
Qed.

End upload.

(** For the sample tree: whatever ids the service answers with, [sub] is
    created by the second call under the id of the first, [a.txt] goes under
    the id of the first and [b.txt], last, under the id of the second. *)
Lemma sample_tree_calls ids flag parent_id :
  calls_of (run (answering ids flag)
              (upload_folder_recursive (Some update_status) "/home/u/root"
                 (Some sample_tree) parent_id))
  = [ CreateFolder "root" parent_id;
      CreateFolder "sub" (ids 0);
      UploadFile "/home/u/root/a.txt" (ids 0);
      UploadFile "/home/u/root/sub/b.txt" (ids 1) ].
Proof. vm_compute. reflexivity. Qed.

(** C6. In a recursive folder upload, whatever the service answers and
    wherever the upload stops: the first call creates the top folder; every
    other folder creation is that of a subdirectory [d] listed by the walk in
    some directory [p], and is made under the id answered by an earlier call
    that created the folder of [p]; every file upload is that of a file [f]
    listed by the walk in some directory [p], and is made under the id
    answered by an earlier call that created the folder of [p], the
    directory that directly contains the file. No other call is made. When
    the upload returns, its calls are exactly: the top folder, then for each
    directory walked (parents first) its subdirectories and then its files. *)
Theorem folder_upload_order (w : World) (cb : option (string -> Thread unit))
    (local_folder parent_id : string) (tree : LocalDir) :
  status_only cb ->
  let o := upload_folder_recursive cb local_folder (Some tree) parent_id w 0 in
  let cs := calls_of (out_events o) in
  (forall j d pid,
      cs !! j = Some (CreateFolder d pid) ->
      (j = 0 /\ d = basename local_folder /\ pid = parent_id)
      \/ exists p dirs files i,
           (p, dirs, files) ∈ os_walk [] tree /\ d ∈ dirs
           /\ i < j /\ folder_of w local_folder parent_id cs p i pid)
  /\ (forall j path pid,
        cs !! j = Some (UploadFile path pid) ->
        exists p dirs files f i,
          (p, dirs, files) ∈ os_walk [] tree /\ f ∈ files
          /\ path = join (root_of local_folder p) f
          /\ i < j /\ folder_of w local_folder parent_id cs p i pid)
  /\ (forall j c, cs !! j = Some c ->
        match c with CreateFolder _ _ | UploadFile _ _ => True | _ => False end)
  /\ (raises (out_res o) = false ->
      Forall2 performs cs (planned_steps local_folder tree)).
Proof.
  intros Hcb o cs.
  destruct (upload_folder_calls_ok w cb local_folder parent_id Hcb tree [] eq_refl)
    as [_ Hok].
  destruct (upload_folder_steps w cb local_folder parent_id Hcb tree [] eq_refl)
    as [_ Hsteps].
  simpl in Hok, Hsteps. fold o in Hok, Hsteps. fold cs in Hok, Hsteps.
  split_and!.
  - intros j d pid Hj. exact (Hok j _ Hj).
  - intros j path pid Hj. exact (Hok j _ Hj).
  - intros j c Hj. specialize (Hok j c Hj). by destruct c.
  - exact Hsteps.
Qed.

Lemma folder_upload_order_witness :
  let w := answering (fun n => "id" +:+ pretty n) (fun _ => false) in
  let cs := calls_of (run w (upload_folder_recursive (Some update_status) "/home/u/root"
                               (Some sample_tree) "root")) in
  cs !! 1 = Some (CreateFolder "sub" "id0")
  /\ cs !! 3 = Some (UploadFile "/home/u/root/sub/b.txt" "id1")
  /\ (exists p dirs files f i,
        (p, dirs, files) ∈ os_walk [] sample_tree /\ f ∈ files
        /\ "/home/u/root/a.txt" = join (root_of "/home/u/root" p) f
        /\ i < 2 /\ folder_of w "/home/u/root" "root" cs p i "id0").
Proof.
  intros w cs.
  split; [reflexivity|]. split; [reflexivity|].
  apply (proj1 (proj2 (folder_upload_order w (Some update_status) "/home/u/root" "root"
                         sample_tree status_only_update_status))
           2 "/home/u/root/a.txt" "id0").
  reflexivity.
Defined.

(** The calls of the folder-upload thread are those of the traversal. *)
Lemma perform_folder_upload_calls w current_folder_id folder_path fs :
  calls_of (run w (perform_folder_upload current_folder_id folder_path fs))
  = calls_of (out_events
      (upload_folder_recursive (Some update_status) folder_path fs current_folder_id w 0)).
Proof.
  unfold run, perform_folder_upload, finally, try_except, bind, update_status,
    is_cancelled, get_auto_refresh, emit, ret. simpl.
  destruct (upload_folder_recursive _ _ _ _ w 0) as [[id|exc] evs n]; simpl.
  - destruct (cancelled w n); simpl; [by rewrite !calls_of_app, !app_nil_r|].
    destruct (auto_refresh w); simpl; by rewrite !calls_of_app, !app_nil_r.
  - by rewrite !calls_of_app, !app_nil_r.
Qed.

Lemma bind_flag {A B} (m : Thread A) (k : A -> Thread B) flag w n :
  m (with_flag flag w) n = m w n ->
  (forall a n', k a (with_flag flag w) n' = k a w n') ->
  bind m k (with_flag flag w) n = bind m k w n.
Proof.
  intros Hm Hk. unfold bind. rewrite Hm.
  destruct (m w n) as [[a|exc] evs n1]; simpl; [|done]. by rewrite Hk.
Qed.

Lemma create_subdirs_flag flag w rel pid dirs m n :
  create_subdirs (Some update_status) rel pid dirs m (with_flag flag w) n
  = create_subdirs (Some update_status) rel pid dirs m w n.
Proof.
  revert m n. induction dirs as [|d rest IH]; intros m n; [done|].
  simpl. apply bind_flag; [done|]. intros _ n1.
  apply bind_flag; [done|]. intros id n2. apply IH.
Qed.

Lemma upload_files_flag flag w local_folder rel pid files n :
  upload_files (Some update_status) local_folder rel pid files (with_flag flag w) n
  = upload_files (Some update_status) local_folder rel pid files w n.
Proof.
  revert n. induction files as [|f rest IH]; intros n; [done|].
  simpl. apply bind_flag; [done|]. intros _ n1.
  apply bind_flag; [done|]. intros id n2. apply IH.
Qed.

Lemma walk_loop_flag flag w local_folder folder_id entries m n :
  walk_loop (Some update_status) local_folder folder_id entries m (with_flag flag w) n
  = walk_loop (Some update_status) local_folder folder_id entries m w n.
Proof.
  revert m n. induction entries as [|[[rel dirs] files] rest IH]; intros m n; [done|].
  simpl. apply bind_flag; [by apply create_subdirs_flag|]. intros m' n1.
  apply bind_flag; [by apply upload_files_flag|]. intros _ n2. apply IH.
Qed.

(** The traversal never reads the cancellation flag: with any other history
    of the flag it performs the same events and returns the same result. *)
Lemma upload_folder_ignores_flag flag w local_folder fs parent_id n :
  upload_folder_recursive (Some update_status) local_folder fs parent_id (with_flag flag w) n
  = upload_folder_recursive (Some update_status) local_folder fs parent_id w n.
Proof.
  unfold upload_folder_recursive. destruct fs as [tree|]; [|done].
  apply bind_flag; [done|]. intros id n1.
  apply bind_flag; [by apply walk_loop_flag|]. done.
Qed.

Lemma folder_upload_calls_ignore_flag flag w current_folder_id folder_path fs :
  calls_of (run (with_flag flag w) (perform_folder_upload current_folder_id folder_path fs))
  = calls_of (run w (perform_folder_upload current_folder_id folder_path fs)).
Proof. by rewrite !perform_folder_upload_calls, upload_folder_ignores_flag. Qed.

(** C2, on the code: with the cancellation flag set before the traversal
    makes its first call, the folder-upload thread still creates both
    folders and uploads both files of the sample tree; only the completion
    message is withheld. *)
Theorem folder_upload_not_cancellable :
  let w := answering (fun n => "id" +:+ pretty n) (fun _ => true) in
  let evs := run w (perform_folder_upload "root" "/home/u/root" (Some sample_tree)) in
  cancelled w 0 = true
  /\ calls_of evs
     = [ CreateFolder "root" "root";
         CreateFolder "sub" "id0";
         UploadFile "/home/u/root/a.txt" "id0";
         UploadFile "/home/u/root/sub/b.txt" "id1" ]
  /\ List.filter is_post_info evs = [].
Proof. vm_compute. done. Qed.

End FolderUploadFacts.

(** * Further properties *)

(** ** Navigation as a stack *)

Module NavigationOpsFacts.
Import DataModels Navigation NavigationOps NavigationFacts.

Lemma nav_run_app ops1 ops2 nav :
  nav_run (ops1 ++ ops2) nav = nav_run ops2 (nav_run ops1 nav).
Proof. unfold nav_run. apply foldl_app. Qed.

Lemma back_after_enter nav folder_id folder_name :
  nav_step (nav_step nav (Enter folder_id folder_name)) Back = nav.
Proof.
  destruct nav as [cid cname h]. unfold nav_step, navigate_to_folder, go_back. simpl.
  by rewrite pop_snoc.
Qed.

(** X1. Entering any number of folders one inside the other and then
    pressing Back as many times restores the navigation state exactly,
    whatever the state was and whatever the folders are. *)
Theorem back_undoes_enters (nav : NavigationState) (path : list (string * string)) :
  nav_run (replicate (length path) Back)
    (nav_run (map (fun e => Enter (fst e) (snd e)) path) nav) = nav.
Proof.
  induction path as [|e path IH] using rev_ind; [done|].
  rewrite map_app, nav_run_app, length_app. simpl.
  rewrite Nat.add_1_r. simpl. unfold nav_run at 2. simpl.
  fold (nav_run (replicate (length path) Back)).
  rewrite back_after_enter. exact IH.
Qed.




End NavigationOpsFacts.

(** ** Batches, in every world *)

Module BatchShapeFacts.
Import MainWindow Observe ObserveMore BatchSpec ThreadFacts BatchFacts.

Lemma all_ok_nil w n : all_ok w n [].
Proof. intros t c Ht. done. Qed.

Lemma all_ok_cons w n c cs :
  raises (remote w n c) = false -> all_ok w (S n) cs -> all_ok w n (c :: cs).
Proof.
  intros Hc Hcs [|t] c' Ht; simpl in Ht.
  - injection Ht as <-. by rewrite Nat.add_0_r.
  - replace (n + S t) with (S n + t) by lia. by apply Hcs.
Qed.

Lemma loop_event_no_post e :
  loop_event e = true ->
  is_post_info e = false /\ is_post_error e = false
  /\ is_post_refresh e = false /\ is_post_close e = false.
Proof. by destruct e. Qed.

Lemma loop_events_filter (f : Event -> bool) evs :
  (forall e, loop_event e = true -> f e = false) ->
  Forall (fun e => loop_event e = true) evs -> List.filter f evs = [].
Proof.
  intros Hf. induction 1 as [|e evs He _ IH]; [done|].
  simpl. by rewrite (Hf e He).
Qed.

Section batch.
Context {Item : Type} (b : Batch Item) (w : World).

Local Abbreviation epilogue := (BatchSpec.epilogue b w).
Local Abbreviation attemptable := (BatchSpec.attemptable b).

(** What the loop does in any world. *)
Lemma batch_loop_shape total items i count n :
  (items <> [] -> total <> 0) ->
  let o := batch_loop b total i items count w n in
  let cs := calls_of (out_events o) in
  cs `prefix_of` map (action b) (attemptable items)
  /\ out_calls o = n + length cs
  /\ Forall (fun e => loop_event e = true) (out_events o)
  /\ match out_res o with
     | Ok c =>
         c = count + length cs /\ all_ok w n cs
         /\ (cancelled w (out_calls o) = false ->
             cs = map (action b) (attemptable items))
     | Raise exc => stopped_at w n exc cs
     end.
Proof.
  revert i count n. induction items as [|item rest IH]; intros i count n Htot.
  { simpl. split_and!;
      [apply prefix_nil|lia|constructor|done|apply all_ok_nil|done]. }
  cbv zeta. rewrite batch_loop_cons.
  assert (Htot' : rest <> [] -> total <> 0) by (intros _; by apply Htot).
  destruct (cancelled w n) eqn:Hcn.
  { simpl. split_and!;
      [apply prefix_nil|lia|constructor|done|apply all_ok_nil|intros Hc; congruence]. }
  unfold BatchSpec.attemptable. simpl.
  destruct (has_row b item) eqn:Hrow; [|by apply IH].
  destruct total as [|t]; [by destruct Htot|].
  destruct (remote w n (action b item)) as [r|exc] eqn:Hr; simpl.
  - destruct (IH (S i) (S count) (S n) Htot') as (Hp & Hn & Hev & Hres).
    split_and!.
    + by apply prefix_cons.
    + rewrite Hn. lia.
    + constructor; [done|]. constructor; [done|]. done.
    + destruct (out_res (batch_loop b (S t) (S i) rest (S count) w (S n))) as [c|exc].
      * destruct Hres as (-> & Hok & Hall). split_and!; [lia| |].
        -- apply all_ok_cons; [by rewrite Hr|done].
        -- intros Hc. by rewrite (Hall Hc).
      * destruct Hres as (pre & c & Hcs & Hok & Hexc).
        exists (action b item :: pre), c. split_and!.
        -- by rewrite Hcs.
        -- apply all_ok_cons; [by rewrite Hr|done].
        -- simpl. by replace (n + S (length pre)) with (S n + length pre) by lia.
  - split_and!.
    + apply prefix_cons, prefix_nil.
    + lia.
    + by repeat constructor.
    + exists [], (action b item). split_and!; [done|apply all_ok_nil|].
      simpl. by rewrite Nat.add_0_r.
Qed.

Lemma epilogue_cases lo :
  (exists exc, out_res lo = Raise exc
     /\ epilogue lo = [EvPostError (error_title b) exc; EvPostClose])
  \/ (exists count, out_res lo = Ok count
        /\ cancelled w (out_calls lo) = false /\ 0 < count
        /\ epilogue lo =
           EvPostInfo (done_title b) (done_message b count)
           :: (if refreshes b && auto_refresh w then [EvPostRefresh] else [])
           ++ [EvPostClose])
  \/ (exists count, out_res lo = Ok count
        /\ (cancelled w (out_calls lo) = true \/ count = 0)
        /\ epilogue lo = [EvPostClose]).
Proof.
  unfold BatchSpec.epilogue. destruct (out_res lo) as [count|exc]; [|left; eauto].
  right. destruct (cancelled w (out_calls lo)) eqn:Hc; simpl.
  - right. exists count. eauto.
  - destruct (0 <? count) eqn:Hpos.
    + left. exists count. apply Nat.ltb_lt in Hpos. eauto.
    + right. exists count. apply Nat.ltb_ge in Hpos. split_and!; [done| |done].
      right. lia.
Qed.

End batch.

(** X3. In a batch where the cancellation flag is never set and every call
    returns, every item the loop has a call for is processed, in order; no
    error is posted; a completion message is posted exactly when at least
    one item was processed, and it carries their number; the refresh of the
    listing is posted exactly when the message is, the batch is an upload or
    a deletion, and [auto_refresh] is on. *)
Theorem batch_completes {Item} (b : Batch Item) (w : World) (items : list Item) :
  (forall t, cancelled w t = false) ->
  (forall t item, attemptable b items !! t = Some item ->
     raises (remote w t (action b item)) = false) ->
  let evs := run w (batch_thread b items) in
  let done := length (attemptable b items) in
  calls_of evs = map (action b) (attemptable b items)
  /\ List.filter is_post_error evs = []
  /\ List.filter is_post_info evs =
     (if 0 <? done then [EvPostInfo (done_title b) (done_message b done)] else [])
  /\ List.filter is_post_refresh evs =
     (if (0 <? done) && refreshes b && auto_refresh w then [EvPostRefresh] else [])
  /\ last evs = Some EvPostClose.
Proof.
  intros Hc Hok evs done. subst evs done.
  rewrite batch_thread_events.
  set (lo := batch_loop b (length items) 0 items 0 w 0).
  destruct (batch_loop_shape b w (length items) items 0 0 0) as (Hp & Hn & Hev & Hres).
  { intros Hne. destruct items; [done|]. simpl. lia. }
  fold lo in Hp, Hn, Hev, Hres.
  assert (Hres' : out_res lo = Ok (length (attemptable b items))
                  /\ calls_of (out_events lo) = map (action b) (attemptable b items)).
  { destruct (out_res lo) as [c|exc].
    - destruct Hres as (-> & _ & Hall). rewrite (Hall (Hc _)).
      by rewrite length_map.
    - destruct Hres as (pre & c & Hcs & _ & Hexc). exfalso.
      destruct Hp as [k Hk]. rewrite Hcs in Hk.
      assert (Hl : map (action b) (attemptable b items) !! length pre = Some c).
      { rewrite Hk, <- app_assoc. simpl. by rewrite list_lookup_middle. }
      rewrite list_lookup_fmap in Hl.
      destruct (attemptable b items !! length pre) as [item|] eqn:Hitem; [|done].
      simpl in Hl. injection Hl as <-.
      specialize (Hok _ _ Hitem). simpl in Hexc. by rewrite Hexc in Hok. }
  destruct Hres' as [Hr Hcs].
  assert (Hep : BatchSpec.epilogue b w lo =
                if 0 <? length (attemptable b items) then
                  EvPostInfo (done_title b) (done_message b (length (attemptable b items)))
                  :: (if refreshes b && auto_refresh w then [EvPostRefresh] else [])
                  ++ [EvPostClose]
                else [EvPostClose]).
  { unfold BatchSpec.epilogue. rewrite Hr, Hc. done. }
  rewrite calls_of_app, calls_of_epilogue, app_nil_r, !List.filter_app.
  rewrite !(loop_events_filter _ _ (fun e H => proj1 (loop_event_no_post e H)) Hev).
  rewrite !(loop_events_filter _ _ (fun e H => proj1 (proj2 (loop_event_no_post e H))) Hev).
  rewrite !(loop_events_filter _ _
              (fun e H => proj1 (proj2 (proj2 (loop_event_no_post e H)))) Hev).
  split_and!; [done| | | |apply last_epilogue].
  - rewrite Hep. destruct (0 <? _); [|done]. simpl.
    by destruct (refreshes b && auto_refresh w).
  - rewrite Hep. destruct (0 <? _); [|done]. simpl.
    by destruct (refreshes b && auto_refresh w).
  - rewrite Hep. destruct (0 <? _); [|done]. simpl.
    by destruct (refreshes b), (auto_refresh w).
Qed.

Lemma batch_completes_witness :
  let w := answering (fun n => "id" +:+ pretty n) (fun _ => false) in
  let evs := run w (perform_file_upload "root" ["a.txt"; "b.txt"]) in
  calls_of evs = [UploadFile "a.txt" "root"; UploadFile "b.txt" "root"]
  /\ List.filter is_post_error evs = []
  /\ List.filter is_post_info evs
     = [EvPostInfo "Upload Complete" "Successfully uploaded 2 files"]
  /\ List.filter is_post_refresh evs = [EvPostRefresh]
  /\ last evs = Some EvPostClose.
Proof.
  apply (batch_completes (upload_batch "root")
           (answering (fun n => "id" +:+ pretty n) (fun _ => false))
           ["a.txt"; "b.txt"]).
  - reflexivity.
  - reflexivity.
Defined.

(** The events of a batch thread, by the way its loop ended. *)
Lemma batch_thread_cases {Item} (b : Batch Item) (w : World) (items : list Item) :
  let lo := batch_loop b (length items) 0 items 0 w 0 in
  let cs := calls_of (out_events lo) in
  run w (batch_thread b items) = out_events lo ++ BatchSpec.epilogue b w lo
  /\ calls_of (run w (batch_thread b items)) = cs
  /\ cs `prefix_of` map (action b) (attemptable b items)
  /\ out_calls lo = length cs
  /\ Forall (fun e => loop_event e = true) (out_events lo)
  /\ match out_res lo with
     | Ok c =>
         c = length cs /\ all_ok w 0 cs
         /\ (cancelled w (length cs) = false -> cs = map (action b) (attemptable b items))
     | Raise exc => stopped_at w 0 exc cs
     end.
Proof.
  intros lo cs.
  destruct (batch_loop_shape b w (length items) items 0 0 0) as (Hp & Hn & Hev & Hres).
  { intros Hne. destruct items; [done|]. simpl. lia. }
  fold lo in Hp, Hn, Hev, Hres. fold cs in Hp, Hn, Hres. simpl in Hn, Hres.
  split_and!; try done.
  - apply batch_thread_events.
  - rewrite batch_thread_events, calls_of_app, calls_of_epilogue. apply app_nil_r.
  - destruct (out_res lo); [|done]. by rewrite Hn in Hres.
Qed.

Ltac loop_filters Hev :=
  rewrite ?List.filter_app;
  rewrite ?(loop_events_filter is_post_info _
              (fun e H => proj1 (loop_event_no_post e H)) Hev);
  rewrite ?(loop_events_filter is_post_error _
              (fun e H => proj1 (proj2 (loop_event_no_post e H))) Hev);
  rewrite ?(loop_events_filter is_post_refresh _
              (fun e H => proj1 (proj2 (proj2 (loop_event_no_post e H)))) Hev);
  rewrite ?(loop_events_filter is_post_close _
              (fun e H => proj2 (proj2 (proj2 (loop_event_no_post e H)))) Hev);
  simpl.

(** X4. In every world, a batch thread makes its calls in the order of its
    items, each item at most once and none out of turn (the calls made are a
    prefix of the calls of the items); it posts at most one message, a
    completion or an error, never both; and it posts the close of the
    dialog exactly once, as its last act. *)
Theorem batch_in_order_then_close {Item} (b : Batch Item) (w : World)
    (items : list Item) :
  let evs := run w (batch_thread b items) in
  calls_of evs `prefix_of` map (action b) (attemptable b items)
  /\ length (List.filter is_post_info evs) + length (List.filter is_post_error evs) <= 1
  /\ List.filter is_post_close evs = [EvPostClose]
  /\ last evs = Some EvPostClose.
Proof.
  intros evs. subst evs.
  destruct (batch_thread_cases b w items) as (Hrun & Hcalls & Hp & _ & Hev & _).
  rewrite Hcalls, Hrun. split; [done|].
  loop_filters Hev.
  destruct (epilogue_cases b w (batch_loop b (length items) 0 items 0 w 0))
    as [(exc & _ & ->)|[(c & _ & _ & _ & ->)|(c & _ & _ & ->)]].
  - simpl. split_and!; [lia|done|].
    change [EvPostError (error_title b) exc; EvPostClose]
      with ([EvPostError (error_title b) exc] ++ [EvPostClose]).
    rewrite app_assoc. apply last_snoc.
  - destruct (refreshes b && auto_refresh w); simpl; (split_and!; [lia|done|]).
    + change (EvPostInfo (done_title b) (done_message b c) :: [EvPostRefresh; EvPostClose])
        with ([EvPostInfo (done_title b) (done_message b c); EvPostRefresh] ++ [EvPostClose]).
      rewrite app_assoc. apply last_snoc.
    + change ([EvPostInfo (done_title b) (done_message b c); EvPostClose])
        with ([EvPostInfo (done_title b) (done_message b c)] ++ [EvPostClose]).
      rewrite app_assoc. apply last_snoc.
  - simpl. split_and!; [lia|done|apply last_snoc].
Qed.

(** X5. In every world, a completion message is posted only when the loop
    went through all its items, every call returned and the flag was still
    unset afterwards; the message carries the number of calls made, and no
    error is posted with it. *)
Theorem completion_means_all_done {Item} (b : Batch Item) (w : World)
    (items : list Item) (title message : string) :
  In (EvPostInfo title message) (run w (batch_thread b items)) ->
  let evs := run w (batch_thread b items) in
  let cs := calls_of evs in
  cs = map (action b) (attemptable b items)
  /\ all_ok w 0 cs
  /\ 0 < length cs
  /\ cancelled w (length cs) = false
  /\ title = done_title b /\ message = done_message b (length cs)
  /\ List.filter is_post_error evs = [].
Proof.
  intros Hin evs cs. subst evs cs.
  destruct (batch_thread_cases b w items) as (Hrun & Hcalls & Hp & Hn & Hev & Hres).
  rewrite Hcalls. rewrite Hrun in Hin |- *.
  apply in_app_or in Hin as [Hin|Hin].
  { rewrite Forall_forall in Hev. apply list_elem_of_In, Hev in Hin. done. }
  loop_filters Hev.
  destruct (epilogue_cases b w (batch_loop b (length items) 0 items 0 w 0))
    as [(exc & _ & He)|[(c & Hr & Hc & Hpos & He)|(c & _ & _ & He)]];
    rewrite He in Hin |- *.
  - destruct Hin as [|[|[]]]; done.
  - rewrite Hr in Hres. destruct Hres as (-> & Hok & Hall). rewrite Hn in Hc.
    assert (Hmsg : title = done_title b
                   /\ message = done_message b (length (calls_of (out_events
                        (batch_loop b (length items) 0 items 0 w 0))))).
    { destruct Hin as [[= <- <-]|Hin]; [done|].
      destruct (refreshes b && auto_refresh w); simpl in Hin;
        repeat (destruct Hin as [Hin|Hin]; [done|]); done. }
    destruct Hmsg as [-> ->].
    split_and!; try done; [by apply Hall|].
    by destruct (refreshes b && auto_refresh w).
  - destruct Hin as [|[]]; done.
Qed.

Lemma completion_means_all_done_witness :
  let w := answering (fun n => "id" +:+ pretty n) (fun _ => false) in
  let tree := fun item : string => ["";"";"";"";item;"False";item;""] in
  let evs := run w (perform_deletion tree ["f1"; "f2"]) in
  calls_of evs = [DeleteFile "f1"; DeleteFile "f2"]
  /\ List.filter is_post_error evs = [].
Proof.
  intros w tree evs.
  destruct (completion_means_all_done (delete_batch tree) w ["f1"; "f2"]
              "Delete Complete" "Successfully deleted 2 items")
    as (Hcs & _ & _ & _ & _ & _ & Herr).
  - vm_compute. tauto.
  - split; [exact Hcs|exact Herr].
Defined.

(** X6. In every world, a batch thread posts the refresh of the listing
    exactly when it posts a completion message, the batch is one that
    refreshes and [auto_refresh] is on; a download never posts it. *)
Theorem refresh_policy {Item} (b : Batch Item) (w : World) (items : list Item)
    (tree : string -> list string) (rows : list string) (save_path : string) :
  List.filter is_post_refresh (run w (batch_thread b items))
  = (if refreshes b && auto_refresh w
     then map (fun _ => EvPostRefresh) (List.filter is_post_info (run w (batch_thread b items)))
     else [])
  /\ List.filter is_post_refresh (run w (perform_download tree rows save_path)) = [].
Proof.
  assert (Hgen : forall Item (b : Batch Item) items,
             List.filter is_post_refresh (run w (batch_thread b items))
             = (if refreshes b && auto_refresh w
                then map (fun _ => EvPostRefresh)
                       (List.filter is_post_info (run w (batch_thread b items)))
                else [])).
  { clear. intros Item b items.
    destruct (batch_thread_cases b w items) as (Hrun & _ & _ & _ & Hev & _).
    rewrite Hrun. loop_filters Hev.
    destruct (epilogue_cases b w (batch_loop b (length items) 0 items 0 w 0))
      as [(exc & _ & ->)|[(c & _ & _ & _ & ->)|(c & _ & _ & ->)]]; simpl.
    - by destruct (refreshes b && auto_refresh w).
    - by destruct (refreshes b && auto_refresh w).
    - by destruct (refreshes b && auto_refresh w). }
  split; [apply Hgen|].
  unfold perform_download. rewrite Hgen. done.
Qed.

End BatchShapeFacts.

(** ** Folder uploads: results and failures *)

Module FolderOutcomeFacts.
Import Path Drive MainWindow HelpersWalk Observe ObserveMore FolderSpec.
Import ThreadFacts ThreadLogic FolderUploadFacts BatchShapeFacts.

Lemma never_raises_update_status : never_raises (Some update_status).
Proof. intros f msg w n [= <-]. done. Qed.

Lemma all_ok_snoc w cs c :
  all_ok w 0 cs -> raises (remote w (length cs) c) = false -> all_ok w 0 (cs ++ [c]).
Proof.
  intros Hcs Hc t c' Ht. simpl.
  destruct (decide (t < length cs)) as [Hlt|Hge].
  - rewrite lookup_app_l in Ht by done. by apply (Hcs t).
  - pose proof (lookup_lt_Some _ _ _ Ht) as Hlt. rewrite length_app in Hlt. simpl in Hlt.
    assert (t = length cs) as -> by lia.
    rewrite list_lookup_middle in Ht by done. by injection Ht as <-.
Qed.

Section stops.
Context (w : World) (cb : option (string -> Thread unit)) (local_folder : string).
Hypothesis cb_quiet : status_only cb.
Hypothesis cb_total : never_raises cb.

Lemma triple_notify_ok msg :
  triple w (all_ok w 0) (notify cb msg) (stop_post w).
Proof.
  intros pre HP. unfold notify. destruct cb as [f|] eqn:Hcb.
  - destruct (cb_quiet f msg w (length pre) eq_refl) as [Hn Hc].
    pose proof (cb_total f msg w (length pre) eq_refl) as Hr.
    simpl. rewrite Hc, Hr, app_nil_r. done.
  - simpl. by rewrite app_nil_r.
Qed.

Lemma triple_call_stop (c : Call) :
  triple w (all_ok w 0) (drive_call c) (stop_post w).
Proof.
  apply triple_call. intros pre Hpre.
  destruct (remote w (length pre) c) as [r|exc] eqn:Hr; simpl.
  - apply all_ok_snoc; [done|]. by rewrite Hr.
  - exists pre, c. done.
Qed.

(** Sequencing keeps the shape: either all calls so far returned, or the
    thread stopped at the call that raised. *)
Lemma triple_bind_stop {A B} (m : Thread A) (k : A -> Thread B) :
  triple w (all_ok w 0) m (stop_post w) ->
  (forall a, triple w (all_ok w 0) (k a) (stop_post w)) ->
  triple w (all_ok w 0) (bind m k) (stop_post w).
Proof.
  intros Hm Hk. eapply triple_bind; [exact Hm| |done].
  intros a. apply Hk.
Qed.

Lemma create_subdirs_stops rel pid dirs m :
  triple w (all_ok w 0) (create_subdirs cb rel pid dirs m) (stop_post w).
Proof.
  revert m. induction dirs as [|d rest IH]; intros m.
  - by apply triple_ret.
  - simpl. apply triple_bind_stop; [apply triple_notify_ok|]. intros _.
    apply triple_bind_stop; [apply triple_call_stop|]. intros id. apply IH.
Qed.

Lemma upload_files_stops rel pid files :
  triple w (all_ok w 0) (upload_files cb local_folder rel pid files) (stop_post w).
Proof.
  induction files as [|f rest IH].
  - by apply triple_ret.
  - simpl. apply triple_bind_stop; [apply triple_notify_ok|]. intros _.
    apply triple_bind_stop; [apply triple_call_stop|]. intros _. apply IH.
Qed.

Lemma walk_loop_stops folder_id entries m :
  triple w (all_ok w 0) (walk_loop cb local_folder folder_id entries m) (stop_post w).
Proof.
  revert m. induction entries as [|[[rel dirs] files] rest IH]; intros m.
  - by apply triple_ret.
  - simpl. apply triple_bind_stop; [apply create_subdirs_stops|]. intros m'.
    apply triple_bind_stop; [apply upload_files_stops|]. intros _. apply IH.
Qed.

Lemma upload_folder_stops tree parent_id :
  triple w (all_ok w 0)
    (upload_folder_recursive cb local_folder (Some tree) parent_id) (stop_post w).
Proof.
  unfold upload_folder_recursive, create_folder.
  apply triple_bind_stop; [apply triple_call_stop|]. intros folder_id.
  apply triple_bind_stop; [apply walk_loop_stops|]. intros m'. by apply triple_ret.
Qed.

End stops.

Lemma count_steps local_folder entries file_count dir_count :
  let r := foldl (fun acc e =>
                    match acc, e with
                    | (fc, dc), (_, dirnames, filenames) =>
                        (fc + length filenames, dc + length dirnames)
                    end) (file_count, dir_count) entries in
  r.2 + r.1 = dir_count + file_count + length (flat_map (entry_steps local_folder) entries).
Proof.
  revert file_count dir_count.
  induction entries as [|[[rel dirs] files] rest IH]; intros fc dc; simpl; [lia|].
  rewrite IH. rewrite !length_app, !length_map. lia.
Qed.

(** X7. When a recursive folder upload returns, the id it returns is the one
    the service answered to the first call, the creation of the top folder;
    and it has made one call for the top folder, one per directory and one
    per file that [count_files_in_folder] counts in the tree. *)
Theorem folder_upload_result (w : World) (cb : option (string -> Thread unit))
    (local_folder parent_id : string) (tree : LocalDir) (folder_id : string) :
  status_only cb ->
  out_res (upload_folder_recursive cb local_folder (Some tree) parent_id w 0) = Ok folder_id ->
  remote w 0 (CreateFolder (basename local_folder) parent_id) = Ok folder_id
  /\ length (calls_of (out_events
               (upload_folder_recursive cb local_folder (Some tree) parent_id w 0)))
     = 1 + (count_files_in_folder tree).2 + (count_files_in_folder tree).1.
Proof.
  intros Hcb Hres. split.
  - revert Hres. unfold upload_folder_recursive, create_folder, bind, drive_call. simpl.
    destruct (remote w 0 (CreateFolder (basename local_folder) parent_id))
      as [id|exc]; simpl; [|done].
    destruct (out_res (walk_loop cb local_folder id (os_walk [] tree) {[ [] := id ]} w 1));
      simpl; [|done].
    by intros [= ->].
  - destruct (upload_folder_steps w cb local_folder parent_id Hcb tree [] eq_refl)
      as [_ Hsteps].
    change (length (@nil Call)) with 0 in Hsteps.
    change (@nil Call ++ ?l) with l in Hsteps.
    unfold follows in Hsteps. rewrite Hres in Hsteps.
    specialize (Hsteps eq_refl). apply Forall2_length in Hsteps. rewrite Hsteps.
    unfold planned_steps, count_files_in_folder. simpl.
    pose proof (count_steps local_folder (os_walk [] tree) 0 0) as Hcount.
    simpl in Hcount. lia.
Qed.

Lemma folder_upload_result_witness :
  let w := answering (fun n => "id" +:+ pretty n) (fun _ => false) in
  let o := upload_folder_recursive (Some update_status) "/home/u/root"
             (Some sample_tree) "root" w 0 in
  out_res o = Ok "id0"
  /\ remote w 0 (CreateFolder "root" "root") = Ok "id0"
  /\ length (calls_of (out_events o)) = 4.
Proof.
  intros w o. split; [reflexivity|].
  apply (folder_upload_result w (Some update_status) "/home/u/root" "root"
           sample_tree "id0" status_only_update_status).
  reflexivity.
Defined.

(** The events of the folder-upload thread, by the way the traversal ended. *)
Lemma perform_folder_upload_events w current_folder_id folder_path fs :
  let t := upload_folder_recursive (Some update_status) folder_path fs current_folder_id w 0 in
  run w (perform_folder_upload current_folder_id folder_path fs)
  = EvStatus ("Uploading folder: " +:+ basename folder_path) None
    :: out_events t
    ++ match out_res t with
       | Raise exc => [EvPostError "Upload Error" exc; EvPostClose]
       | Ok _ =>
           if cancelled w (out_calls t) then [EvPostClose]
           else EvPostInfo "Upload Complete"
                  ("Successfully uploaded folder: " +:+ basename folder_path)
                :: (if auto_refresh w then [EvPostRefresh] else []) ++ [EvPostClose]
       end.
Proof.
  unfold run, perform_folder_upload, finally, try_except, bind, update_status,
    is_cancelled, get_auto_refresh, emit, ret. simpl.
  destruct (upload_folder_recursive _ _ _ _ w 0) as [[id|exc] evs n]; simpl.
  - destruct (cancelled w n); simpl; [by rewrite !app_nil_r|].
    destruct (auto_refresh w); simpl; by rewrite <- ?app_assoc.
  - by rewrite <- app_assoc.
Qed.

Lemma bind_loop_events {A B} (m : Thread A) (k : A -> Thread B) w n :
  Forall (fun e => loop_event e = true) (out_events (m w n)) ->
  (forall a n', Forall (fun e => loop_event e = true) (out_events (k a w n'))) ->
  Forall (fun e => loop_event e = true) (out_events (bind m k w n)).
Proof.
  intros Hm Hk. unfold bind. destruct (out_res (m w n)); simpl; [|done].
  apply Forall_app. split; [done|apply Hk].
Qed.

Lemma create_subdirs_loop_events rel pid dirs m w n :
  Forall (fun e => loop_event e = true)
    (out_events (create_subdirs (Some update_status) rel pid dirs m w n)).
Proof.
  revert m n. induction dirs as [|d rest IH]; intros m n; [constructor|].
  cbn [create_subdirs upload_files]. apply bind_loop_events; [by repeat constructor|]. intros _ n1.
  apply bind_loop_events; [by repeat constructor|]. intros id n2. apply IH.
Qed.

Lemma upload_files_loop_events local_folder rel pid files w n :
  Forall (fun e => loop_event e = true)
    (out_events (upload_files (Some update_status) local_folder rel pid files w n)).
Proof.
  revert n. induction files as [|f rest IH]; intros n; [constructor|].
  cbn [create_subdirs upload_files]. apply bind_loop_events; [by repeat constructor|]. intros _ n1.
  apply bind_loop_events; [by repeat constructor|]. intros id n2. apply IH.
Qed.

Lemma walk_loop_loop_events local_folder folder_id entries m w n :
  Forall (fun e => loop_event e = true)
    (out_events (walk_loop (Some update_status) local_folder folder_id entries m w n)).
Proof.
  revert m n. induction entries as [|[[rel dirs] files] rest IH]; intros m n; [constructor|].
  cbn [walk_loop]. apply bind_loop_events; [apply create_subdirs_loop_events|]. intros m' n1.
  apply bind_loop_events; [apply upload_files_loop_events|]. intros _ n2. apply IH.
Qed.

Lemma upload_folder_loop_events local_folder fs parent_id w n :
  Forall (fun e => loop_event e = true)
    (out_events (upload_folder_recursive (Some update_status) local_folder fs parent_id w n)).
Proof.
  destruct fs as [tree|]; [|constructor].
  unfold upload_folder_recursive, create_folder.
  apply bind_loop_events; [by repeat constructor|]. intros id n1.
  apply bind_loop_events; [apply walk_loop_loop_events|]. intros m' n2. constructor.
Qed.

Lemma loop_events_not_in (evs : list Event) (e : Event) :
  Forall (fun e => loop_event e = true) evs -> loop_event e = false -> ~ In e evs.
Proof.
  intros Hev He Hin. rewrite Forall_forall in Hev.
  apply list_elem_of_In in Hin. specialize (Hev e Hin). congruence.
Qed.

(** X8. How a folder upload ends, in every world.  An error is posted only
    under the title [Upload Error], and then no completion message and no
    refresh: either nothing exists at the path and no call was made, or the
    traversal stopped at the first call that raised, which is its last call,
    and the message is that call's exception.  With no error posted every
    call returned, and the completion message is posted exactly when the
    cancellation flag, read once after the last call, is not set. *)
Theorem folder_upload_outcome (w : World) (current_folder_id folder_path : string)
    (fs : option LocalDir) :
  let evs := run w (perform_folder_upload current_folder_id folder_path fs) in
  let cs := calls_of evs in
  (forall title exc, In (EvPostError title exc) evs ->
     title = "Upload Error"
     /\ List.filter is_post_info evs = [] /\ List.filter is_post_refresh evs = []
     /\ match fs with
        | None => cs = [] /\ exc = "Folder not found: " +:+ folder_path
        | Some _ => stopped_at w 0 exc cs
        end)
  /\ (List.filter is_post_error evs = [] ->
      fs <> None /\ all_ok w 0 cs
      /\ (cancelled w (length cs) = false <->
          In (EvPostInfo "Upload Complete"
                ("Successfully uploaded folder: " +:+ basename folder_path)) evs)).
Proof.
  intros evs cs. subst cs evs. rewrite perform_folder_upload_events. cbv zeta.
  pose proof (upload_folder_loop_events folder_path fs current_folder_id w 0) as Hev.
  assert (Hstop : out_calls (upload_folder_recursive (Some update_status) folder_path fs
                               current_folder_id w 0)
                  = length (calls_of (out_events
                      (upload_folder_recursive (Some update_status) folder_path fs
                         current_folder_id w 0)))
                  /\ (fs <> None ->
                      stop_post w
                        (out_res (upload_folder_recursive (Some update_status) folder_path fs
                                    current_folder_id w 0))
                        (calls_of (out_events
                           (upload_folder_recursive (Some update_status) folder_path fs
                              current_folder_id w 0))))).
  { destruct fs as [tree|]; [|done].
    destruct (upload_folder_stops w (Some update_status) folder_path
                status_only_update_status never_raises_update_status tree
                current_folder_id [] (all_ok_nil w 0)) as [Hn Hq].
    split; [exact Hn|]. intros _. exact Hq. }
  destruct Hstop as [Hn Hq].
  assert (Hnone : fs = None ->
            upload_folder_recursive (Some update_status) folder_path fs current_folder_id w 0
            = mkOut (Raise ("Folder not found: " +:+ folder_path)) [] 0).
  { by intros ->. }
  destruct (upload_folder_recursive (Some update_status) folder_path fs
              current_folder_id w 0) as [r tevs n].
  simpl in Hev, Hn, Hq |- *. subst n.
  change (calls_of (EvStatus ?s ?p :: ?l)) with (calls_of l).
  assert (Hcalls : forall tl, calls_of tl = [] -> calls_of (tevs ++ tl) = calls_of tevs).
  { intros tl Htl. by rewrite calls_of_app, Htl, app_nil_r. }
  destruct r as [id|exc0].
  - assert (Hfs : fs <> None) by (intros H; by specialize (Hnone H)).
    split.
    + intros title exc [Hin|Hin]; [done|]. apply in_app_or in Hin as [Hin|Hin].
      * exfalso; revert Hin; apply loop_events_not_in; [exact Hev|done].
      * destruct (cancelled w (length (calls_of tevs))); simpl in Hin.
        -- by destruct Hin.
        -- destruct Hin as [|Hin]; [done|].
           destruct (auto_refresh w); simpl in Hin; intuition congruence.
    + intros _. split; [done|].
      destruct (cancelled w (length (calls_of tevs))) eqn:Hc.
      * rewrite Hcalls by done. rewrite Hc. split; [by apply Hq|].
        split; [done|]. intros [Hin|Hin]; [done|].
        apply in_app_or in Hin as [Hin|Hin].
        -- exfalso; revert Hin; apply loop_events_not_in; [exact Hev|done].
        -- simpl in Hin. intuition congruence.
      * rewrite Hcalls by (by destruct (auto_refresh w)). rewrite Hc.
        split; [by apply Hq|]. split; [|done]. intros _.
        right. apply in_or_app. right. by left.
  - split.
    + intros title exc [Hin|Hin]; [done|]. apply in_app_or in Hin as [Hin|Hin].
      { exfalso; revert Hin; apply loop_events_not_in; [exact Hev|done]. }
      simpl in Hin. destruct Hin as [[= <- <-]|[|[]]]; [|done].
      split; [done|]. simpl. loop_filters Hev. split; [done|]. split; [done|].
      rewrite Hcalls by done.
      destruct fs as [tree|].
      * by apply Hq.
      * specialize (Hnone eq_refl). injection Hnone as -> ->. done.
    + simpl. rewrite List.filter_app. simpl. intros Hf.
      apply app_eq_nil in Hf as [_ Hf]. done.
Qed.

End FolderOutcomeFacts.

(** ** Listings: failures, fields and ties *)

Module ListingMoreFacts.
Import DataModels Drive DriveInfo ListingSpec ListFilesFacts.

Lemma collect_returns py parent_id file_list :
  raises (collect py parent_id file_list) = false <-> Forall has_id_title file_list.
Proof.
  induction file_list as [|f l IH]; simpl.
  - split; [constructor|done].
  - rewrite Forall_cons, <- IH. unfold has_id_title, convert.
    destruct (f_id f) as [i|]; simpl.
    2:{ split; [done|]. by intros [[[] _] _]. }
    destruct (f_title f) as [t|]; simpl.
    2:{ split; [done|]. by intros [[_ []] _]. }
    assert (Hkeys : is_Some (Some i) /\ is_Some (Some t)) by (split; eauto).
    destruct (match f_fileSize f with Some s => int_of_str py s | None => Some 0%Z end).
    + destruct (new_FileItem _ _ _ _ _ _ _);
        destruct (collect py parent_id l) as [[items ws]|e]; simpl; intuition.
    + destruct (collect py parent_id l) as [[items ws]|e]; simpl; intuition.
Qed.

Lemma collect_items py parent_id file_list items warnings :
  collect py parent_id file_list = Ok (items, warnings) ->
  items = omap (kept py parent_id) file_list.
Proof.
  revert items warnings. induction file_list as [|f l IH]; intros items ws; simpl.
  - by intros [= <- <-].
  - unfold kept. destruct (convert py parent_id f) as [item|msg|msg]; [| |done].
    + destruct (collect py parent_id l) as [[items' ws']|e]; [|done].
      intros [= <- <-]. f_equal. by eapply IH.
    + destruct (collect py parent_id l) as [[items' ws']|e]; [|done].
      intros [= <- <-]. by eapply IH.
Qed.

Lemma kept_fields py parent_id f item :
  kept py parent_id f = Some item ->
  f_id f = Some (id item) /\ f_title f = Some (title item)
  /\ parent_id = DataModels.parent_id item
  /\ modified_date item = default "" (f_modifiedDate f)
  /\ mime_type item = default "" (f_mimeType f)
  /\ is_folder item = String.eqb (mime_type item) folder_mime.
Proof.
  unfold kept, convert.
  destruct (f_id f) as [i|]; [|done]. destruct (f_title f) as [t|]; [|done].
  destruct (match f_fileSize f with Some s => int_of_str py s | None => Some 0%Z end);
    [|done].
  unfold new_FileItem, post_init. simpl.
  destruct (truthy i); [|done]. destruct (truthy t); [|done].
  simpl. intros [= <-]. simpl. split_and!; try done.
  by destruct (f_mimeType f).
Qed.

Lemma string_leb_refl s : String.leb s s = true.
Proof. by destruct (String.leb_total s s). Qed.

(** X9. A listing is returned exactly when every entry the service answers
    carries both an id and a title key: one entry without either makes
    [list_files] raise for the whole folder, whatever the other entries are,
    while entries with bad values (an empty id, a size that is no number) are
    only skipped. *)
Theorem list_files_returns_iff (py : Builtins) (parent_id : string)
    (file_list : list DriveFile) :
  raises (list_files py (Ok file_list) parent_id) = false
  <-> Forall has_id_title file_list.
Proof.
  rewrite <- (collect_returns py parent_id). unfold list_files.
  by destruct (collect py parent_id file_list) as [[items ws]|e].
Qed.

(** X10. Every item of a returned listing comes from an entry of the
    service's answer with that id and title; its parent is the folder that
    was listed, its date and type are the entry's (empty when the entry has
    none), and it is a folder exactly when its type is the folder type. *)
Theorem list_files_items (py : Builtins) (parent_id : string)
    (file_list : list DriveFile) (items : list FileItem) (warnings : list string) :
  list_files py (Ok file_list) parent_id = Ok (items, warnings) ->
  Forall (fun item =>
            DataModels.parent_id item = parent_id
            /\ is_folder item = String.eqb (mime_type item) folder_mime
            /\ exists f, f ∈ file_list
                 /\ f_id f = Some (id item) /\ f_title f = Some (title item)
                 /\ modified_date item = default "" (f_modifiedDate f)
                 /\ mime_type item = default "" (f_mimeType f)) items.
Proof.
  unfold list_files.
  destruct (collect py parent_id file_list) as [[items' ws]|e] eqn:Hc; [|done].
  intros [= <- <-]. apply collect_items in Hc as ->.
  rewrite Forall_forall. intros item Hitem.
  rewrite (sort_by_perm (sort_key py) key_leb) in Hitem.
  apply list_elem_of_omap in Hitem as (f & Hf & Hk).
  apply kept_fields in Hk as (Hid & Ht & Hp & Hd & Hm & Hfold).
  split_and!; [done|done|]. by exists f.
Qed.

Lemma list_files_items_witness :
  exists items warnings,
    list_files ascii_py (Ok sample_listing) "root" = Ok (items, warnings)
    /\ Forall (fun item => DataModels.parent_id item = "root") items.
Proof.
  eexists _, _. split; [reflexivity|].
  eapply Forall_impl;
    [apply (list_files_items ascii_py "root" sample_listing _ _ eq_refl)|].
  intros item H. exact (proj1 H).
Defined.

(** X11. Ties keep the service's order: the returned items that have one and
    the same sort key (both folders or both files, titles equal up to case)
    are in the order of their entries in the service's answer. *)
Theorem list_files_stable (py : Builtins) (parent_id : string)
    (file_list : list DriveFile) (items : list FileItem) (warnings : list string)
    (k : bool * string) :
  list_files py (Ok file_list) parent_id = Ok (items, warnings) ->
  List.filter (fun x => bool_decide (sort_key py x = k)) items
  = List.filter (fun x => bool_decide (sort_key py x = k))
      (omap (kept py parent_id) file_list).
Proof.
  unfold list_files.
  destruct (collect py parent_id file_list) as [[items' ws]|e] eqn:Hc; [|done].
  intros [= <- <-]. apply collect_items in Hc as ->.
  apply sort_by_stable. intros x y Hx Hy.
  apply bool_decide_eq_true in Hx, Hy. rewrite Hx, Hy.
  unfold key_leb. destruct k as [[] s]; simpl; apply string_leb_refl.
Qed.

Lemma list_files_stable_witness :
  let fl := [ mkDriveFile (Some "1") (Some "n") None None None;
              mkDriveFile (Some "2") (Some "a") None None None;
              mkDriveFile (Some "3") (Some "n") None None None ] in
  exists items warnings,
    list_files ascii_py (Ok fl) "root" = Ok (items, warnings)
    /\ map id items = ["2"; "1"; "3"]
    /\ map id (List.filter (fun x => bool_decide (sort_key ascii_py x = (true, "n"))) items)
       = ["1"; "3"].
Proof.
  intros fl. eexists _, _. split; [reflexivity|]. split; [reflexivity|].
  rewrite (list_files_stable ascii_py "root" fl _ _ (true, "n") eq_refl).
  reflexivity.
Defined.

(** X12. [get_file_info] builds its item as [list_files] does: it answers
    the item that listing the file's first parent (the root when the metadata
    has no parents key) would keep for the same entry, and [None] when the
    fetch fails, when the parents list is empty or its first element has no
    id, or when a listing would skip the entry or fail on it; so an item it
    answers never has an empty id or title. *)
Theorem get_file_info_as_listed (py : Builtins) (fetched : Result Metadata) :
  get_file_info py fetched
  = match fetched with
    | Raise _ => None
    | Ok gfile =>
        parent ← first_parent (m_parents gfile); kept py parent (m_file gfile)
    end
  /\ (forall item, get_file_info py fetched = Some item ->
        id item <> "" /\ title item <> "").
Proof.
  assert (Heq : get_file_info py fetched
                = match fetched with
                  | Raise _ => None
                  | Ok gfile =>
                      parent ← first_parent (m_parents gfile); kept py parent (m_file gfile)
                  end).
  { destruct fetched as [[f ps]|e]; [|done]. unfold get_file_info, kept, convert. simpl.
    destruct (f_id f) as [i|]; [|by destruct (first_parent ps)].
    destruct (f_title f) as [t|]; [|by destruct (first_parent ps)].
    destruct (match f_fileSize f with Some s => int_of_str py s | None => Some 0%Z end);
      [|by destruct (first_parent ps)].
    destruct (first_parent ps) as [p|]; [|done]. simpl.
    by destruct (new_FileItem _ _ _ _ _ _ _). }
  split; [exact Heq|].
  intros item. rewrite Heq. destruct fetched as [[f ps]|e]; [|done]. simpl.
  destruct (first_parent ps) as [p|]; [|done]. simpl. apply kept_valid.
Qed.

End ListingMoreFacts.

(** ** Percentages *)

Module PercentageFacts.
Import DataModels Helpers Floats FloatSpec.

Lemma ratio_le (c c' t : Z) :
  (c <= c')%Z -> (0 < t)%Z -> (inject_Z c / inject_Z t <= inject_Z c' / inject_Z t)%Q.
Proof.
  intros Hc Ht. destruct t as [|t|t]; [lia| |lia].
  unfold Qle, Qdiv, Qmult, Qinv, inject_Z. simpl. nia.
Qed.

Lemma ratio_one (t : Z) : (0 < t)%Z -> (inject_Z t / inject_Z t == 1)%Q.
Proof.
  intros Ht. destruct t as [|t|t]; [lia| |lia].
  unfold Qeq, Qdiv, Qmult, Qinv, inject_Z. simpl. nia.
Qed.

Lemma ratio_zero (t : Z) : (inject_Z 0 / inject_Z t == 0)%Q.
Proof. unfold Qdiv. apply Qmult_0_l. Qed.

Lemma sound_rounding_eq r (x y : Q) : sound_rounding r -> (x == y -> rnd r x == rnd r y)%Q.
Proof.
  intros (Hmono & _) Hxy. apply Qle_antisym; apply Hmono; rewrite Hxy; apply Qle_refl.
Qed.

Lemma sound_exact : sound_rounding exact.
Proof. split_and!; [by intros x y|done|done|done]. Qed.

(** The float percentage does not decrease with the count. *)
Lemma percentage_of_mono r (c c' t : Z) :
  sound_rounding r -> (c <= c')%Z -> (0 <= t)%Z ->
  (percentage_of r c t <= percentage_of r c' t)%Q.
Proof.
  intros Hr Hc Ht. unfold percentage_of.
  destruct (Z.eqb_spec t 0) as [->|Hne]; [apply Qle_refl|].
  destruct Hr as (Hmono & _). apply Hmono.
  apply Qmult_le_compat_r; [|done]. apply Hmono. apply ratio_le; lia.
Qed.

(** X13. With a count between zero and the total, the percentage of a
    [ProgressTracker] and of an [UploadProgress] lies between 0 and 100; it
    is 0 when the total or the count is zero and 100 when the count has
    reached a total that is not zero; and it does not decrease when the
    count grows.  This holds of the float the code computes, for any
    rounding of the division and of the product that keeps the order and
    leaves 0, 1 and 100 as they are, and so of the exact quotient of
    [percentage] and [up_percentage], which is the case of no rounding.
    (With rounding, 100 can be reached before the total is.) *)
Theorem percentage_range (r : Rounding) (completed completed' total : Z)
    (current_file status current_item : string) (errors : list string) :
  sound_rounding r ->
  (0 <= completed <= completed')%Z -> (completed' <= total)%Z ->
  let p := percentage_of r completed total in
  (0 <= p <= 100)%Q
  /\ (total = 0%Z \/ completed = 0%Z -> (p == 0)%Q)
  /\ (completed = total -> total <> 0%Z -> (p == 100)%Q)
  /\ (p <= percentage_of r completed' total)%Q
  /\ percentage_of exact completed total
     = percentage (mkTracker total completed current_item errors)
  /\ percentage_of exact completed total
     = up_percentage (mkUploadProgress current_file completed total status).
Proof.
  intros Hr Hc Hc' p. subst p.
  pose proof Hr as (Hmono & H0 & H1 & H100).
  assert (Hzero : (percentage_of r 0 total == 0)%Q).
  { unfold percentage_of. destruct (total =? 0)%Z; [done|].
    assert (Hx : (rnd r (inject_Z 0 / inject_Z total) == 0)%Q).
    { eapply Qeq_trans; [apply (sound_rounding_eq r _ 0 Hr), ratio_zero|exact H0]. }
    eapply Qeq_trans; [apply (sound_rounding_eq r _ 0 Hr)|exact H0].
    rewrite Hx. apply Qmult_0_l. }
  assert (Hfull : total <> 0%Z -> (percentage_of r total total == 100)%Q).
  { intros Hne. unfold percentage_of. destruct (Z.eqb_spec total 0) as [|_]; [done|].
    assert (Hx : (rnd r (inject_Z total / inject_Z total) == 1)%Q).
    { eapply Qeq_trans; [apply (sound_rounding_eq r _ 1 Hr), ratio_one|exact H1]. lia. }
    eapply Qeq_trans; [apply (sound_rounding_eq r _ 100 Hr)|exact H100].
    rewrite Hx. apply Qmult_1_l. }
  assert (Hall : total = 0%Z -> percentage_of r completed total = 0%Q).
  { intros ->. done. }
  split_and!.
  - apply Qle_trans with (percentage_of r 0 total).
    + apply Qle_lteq. right. symmetry. exact Hzero.
    + apply percentage_of_mono; [done|lia|lia].
  - destruct (Z.eq_dec total 0%Z) as [Ht|Ht]; [by rewrite Hall|].
    apply Qle_trans with (percentage_of r total total).
    + apply percentage_of_mono; [done|lia|lia].
    + apply Qle_lteq. right. by apply Hfull.
  - intros [Ht| ->]; [by rewrite Hall|done].
  - intros -> Hne. by apply Hfull.
  - apply percentage_of_mono; [done|lia|lia].
  - done.
  - done.
Qed.

Lemma percentage_range_witness :
  (0 <= percentage (mkTracker 4 1 "a.txt" []) <= 100)%Q.
Proof.
  destruct (percentage_range exact 1 2 4 "a.txt" "uploading" "a.txt" [] sound_exact)
    as (Hb & _ & _ & _ & He & _); [lia|lia|].
  rewrite <- He. exact Hb.
Defined.

End PercentageFacts.

(** ** File names *)

Module SanitizeFacts.
Import Path HelpersText.

Lemma append_cons c (a b : string) : String c a +:+ b = String c (a +:+ b).
Proof. reflexivity. Qed.

Lemma length_append (a b : string) :
  String.length (a +:+ b) = String.length a + String.length b.
Proof. induction a as [|c a IH]; [done|]. rewrite append_cons. simpl. by rewrite IH. Qed.

Lemma length_map_string f s : String.length (map_string f s) = String.length s.
Proof. induction s as [|c s IH]; simpl; [done|]. by rewrite IH. Qed.

Lemma length_lstrip p s : String.length (lstrip p s) <= String.length s.
Proof. induction s as [|c s IH]; simpl; [done|]. destruct (p c); simpl; lia. Qed.

Lemma length_rstrip p s : String.length (rstrip p s) <= String.length s.
Proof.
  induction s as [|c s IH]; simpl; [done|].
  destruct (rstrip p s) as [|d r]; [destruct (p c)|]; simpl in *; lia.
Qed.

Lemma length_take_string n s : String.length (take_string n s) = n `min` String.length s.
Proof.
  revert s. induction n as [|n IH]; intros [|c s]; simpl; try done.
  by rewrite IH.
Qed.

Lemma all_chars_map_string q f s :
  (forall c, q (f c) = true) -> all_chars q (map_string f s) = true.
Proof. intros Hq. induction s as [|c s IH]; simpl; [done|]. by rewrite Hq, IH. Qed.

Lemma all_chars_lstrip q p s : all_chars q s = true -> all_chars q (lstrip p s) = true.
Proof.
  induction s as [|c s IH]; simpl; [done|]. intros [Hc Hs]%andb_prop.
  destruct (p c); [by apply IH|]. simpl. by rewrite Hc, Hs.
Qed.

Lemma all_chars_rstrip q p s : all_chars q s = true -> all_chars q (rstrip p s) = true.
Proof.
  induction s as [|c s IH]; simpl; [done|]. intros [Hc Hs]%andb_prop.
  specialize (IH Hs). destruct (rstrip p s) as [|d r].
  - destruct (p c); simpl; [done|]. by rewrite Hc.
  - simpl in *. by rewrite Hc, IH.
Qed.

Lemma all_chars_take q n s : all_chars q s = true -> all_chars q (take_string n s) = true.
Proof.
  revert s. induction n as [|n IH]; intros [|c s]; simpl; try done.
  intros [Hc Hs]%andb_prop. by rewrite Hc, IH.
Qed.

Lemma all_chars_app q a b : all_chars q (a +:+ b) = all_chars q a && all_chars q b.
Proof.
  induction a as [|c a IH]; [done|]. rewrite append_cons. simpl.
  by rewrite IH, andb_assoc.
Qed.

Lemma all_chars_slice q k s : all_chars q s = true -> all_chars q (slice_to k s) = true.
Proof. intros H. unfold slice_to. destruct (0 <=? k)%Z; by apply all_chars_take. Qed.

(** The two parts of a split make up the string. *)
Lemma last_dot_app s before ext : last_dot s = Some (before, ext) -> s = before +:+ ext.
Proof.
  revert before ext. induction s as [|c s IH]; intros before ext; simpl; [done|].
  destruct (last_dot s) as [[b e]|].
  - intros [= <- <-]. change (String c s = String c (b +:+ e)). f_equal. by apply IH.
  - destruct (is_dot c); [|done]. by intros [= <- <-].
Qed.

Lemma append_empty_r (s : string) : s +:+ "" = s.
Proof. induction s as [|c s IH]; [done|]. by rewrite append_cons, IH. Qed.

Lemma splitext_app p : p = (splitext p).1 +:+ (splitext p).2.
Proof.
  unfold splitext. destruct (last_dot p) as [[before ext]|] eqn:Hd; simpl.
  - destruct (has_slash ext); simpl; [by rewrite append_empty_r|].
    destruct (all_chars is_dot (basename before)); simpl; [by rewrite append_empty_r|].
    by apply last_dot_app.
  - by rewrite append_empty_r.
Qed.

(** What is left of a strip starts and ends with a character that is kept. *)
Lemma lstrip_head p s :
  lstrip p s = "" \/ exists c r, lstrip p s = String c r /\ p c = false.
Proof.
  induction s as [|c s IH]; simpl; [by left|].
  destruct (p c) eqn:Hc; [exact IH|]. right. by exists c, s.
Qed.

Lemma rstrip_head p c r : p c = false -> exists r', rstrip p (String c r) = String c r'.
Proof. intros Hc. simpl. rewrite Hc. destruct (rstrip p r); eauto. Qed.

Lemma rstrip_idemp p s : rstrip p (rstrip p s) = rstrip p s.
Proof.
  induction s as [|c s IH]; simpl; [done|].
  destruct (rstrip p s) as [|d r] eqn:Hr.
  - destruct (p c) eqn:Hc; simpl; [done|]. by rewrite Hc.
  - remember (String d r) as t. simpl. rewrite IH. by subst t.
Qed.

Lemma strip_head p s :
  strip p s = "" \/ exists c r, strip p s = String c r /\ p c = false.
Proof.
  unfold strip. destruct (lstrip_head p s) as [->|(c & r & -> & Hc)]; [by left|].
  right. destruct (rstrip_head p c r Hc) as [r' ->]. by exists c, r'.
Qed.

Lemma strip_idemp p s : strip p (strip p s) = strip p s.
Proof.
  destruct (strip_head p s) as [->|(c & r & Hs & Hc)]; [done|].
  unfold strip at 1. rewrite Hs. simpl lstrip. rewrite Hc.
  rewrite <- Hs. unfold strip. apply rstrip_idemp.
Qed.

Lemma valid_replace c :
  negb (invalid_char (if invalid_char c then "_"%char else c)) = true.
Proof. destruct (invalid_char c) eqn:Hc; [done|]. by rewrite Hc. Qed.

Lemma sanitize_chars_valid s :
  all_chars (fun c => negb (invalid_char c)) (sanitize_chars s) = true.
Proof.
  unfold sanitize_chars, strip.
  destruct (truthy _) eqn:Ht; simpl; [|done].
  apply all_chars_rstrip, all_chars_lstrip, all_chars_map_string, valid_replace.
Qed.

Lemma sanitize_chars_nonempty s : 1 <= String.length (sanitize_chars s).
Proof.
  unfold sanitize_chars. destruct (truthy _) eqn:Ht; simpl; [|lia].
  destruct (strip _ _); simpl in *; [done|lia].
Qed.

Lemma sanitize_chars_length s :
  String.length (sanitize_chars s) <= String.length s `max` 8.
Proof.
  unfold sanitize_chars, strip, replace_invalid.
  destruct (truthy _); simpl; [|lia].
  etrans; [apply length_rstrip|]. etrans; [apply length_lstrip|].
  rewrite length_map_string. lia.
Qed.

Lemma sanitize_chars_stripped s :
  strip dot_or_space (sanitize_chars s) = sanitize_chars s
  /\ is_hidden_file (sanitize_chars s) = false.
Proof.
  unfold sanitize_chars. destruct (truthy _) eqn:Ht; simpl; [|done].
  split; [apply strip_idemp|].
  destruct (strip_head dot_or_space (replace_invalid s)) as [->|(c & r & -> & Hc)];
    [done|].
  simpl. unfold dot_or_space in Hc. apply orb_false_elim in Hc as [Hc _]. exact Hc.
Qed.

(** The length of what the limit leaves, from the two parts of the split. *)
Lemma limit_length_length s :
  255 < String.length s ->
  let ext := (splitext s).2 in
  limit_length s
  = slice_to (255 - Z.of_nat (String.length ext)) (splitext s).1 +:+ ext
  /\ (String.length ext <= 255 -> String.length (limit_length s) = 255)
  /\ (255 < String.length ext -> 255 < String.length (limit_length s)).
Proof.
  intros Hlen ext. subst ext. unfold limit_length.
  destruct (Nat.ltb_spec 255 (String.length s)) as [_|]; [|lia].
  pose proof (splitext_app s) as Happ. apply (f_equal String.length) in Happ.
  rewrite length_append in Happ.
  destruct (splitext s) as [name ext]. simpl in *.
  split; [done|]. rewrite length_append. unfold slice_to. split.
  - intros Hext. destruct (Z.leb_spec 0 (255 - Z.of_nat (String.length ext))); [|lia].
    rewrite length_take_string. lia.
  - intros Hext. lia.
Qed.

(** X14. What [sanitize_filename] returns is never empty and holds none of
    the characters of [invalid_chars]; for a name of at most 255 characters
    it is at most 255 long, it neither starts nor ends with a dot or a space
    (stripping it again changes nothing) and so is not a hidden file. *)
Theorem sanitize_filename_safe (filename : string) :
  let r := sanitize_filename filename in
  r <> ""
  /\ all_chars (fun c => negb (invalid_char c)) r = true
  /\ (String.length filename <= 255 ->
      String.length r <= 255
      /\ strip dot_or_space r = r
      /\ is_hidden_file r = false).
Proof.
  intros r. subst r. unfold sanitize_filename.
  destruct (truthy filename) eqn:Hf; simpl.
  2:{ split_and!; [done|by vm_compute|].
      intros _. split_and!; [vm_compute; lia|by vm_compute|by vm_compute]. }
  pose proof (sanitize_chars_valid filename) as Hvalid.
  pose proof (sanitize_chars_nonempty filename) as Hne.
  pose proof (sanitize_chars_length filename) as Hlen.
  destruct (Nat.ltb_spec 255 (String.length (sanitize_chars filename))) as [Hlong|Hshort].
  - destruct (limit_length_length _ Hlong) as (Heq & Hle & Hgt). split_and!.
    + intros Hr. apply (f_equal String.length) in Hr. simpl in Hr.
      destruct (decide (String.length (splitext (sanitize_chars filename)).2 <= 255));
        [rewrite Hle in Hr by done|]; lia.
    + rewrite Heq, all_chars_app. apply andb_true_intro.
      pose proof (splitext_app (sanitize_chars filename)) as Happ.
      rewrite Happ, all_chars_app in Hvalid. apply andb_prop in Hvalid as [Hn He].
      split; [by apply all_chars_slice|done].
    + intros Hs. lia.
  - assert (Hid : limit_length (sanitize_chars filename) = sanitize_chars filename).
    { unfold limit_length.
      by destruct (Nat.ltb_spec 255 (String.length (sanitize_chars filename))); [lia|]. }
    rewrite Hid. split_and!.
    + intros Hr. rewrite Hr in Hne. simpl in Hne. lia.
    + done.
    + intros _. split; [done|]. apply sanitize_chars_stripped.
Qed.

(** X15. The length limit holds when the extension of the cleaned name (from
    its last dot on) is at most 255 characters long: the result then has at
    most 255 characters, the extension kept whole and the part before it cut.
    With a longer extension the limit is not kept: the result is longer than
    255 characters. *)
Theorem sanitize_filename_limit (filename : string) :
  let ext := (splitext (sanitize_chars filename)).2 in
  let r := sanitize_filename filename in
  (String.length ext <= 255 ->
   String.length r <= 255
   /\ (255 < String.length (sanitize_chars filename) ->
       exists name, r = name +:+ ext /\ String.length r = 255))
  /\ (255 < String.length ext -> 255 < String.length r).
Proof.
  intros ext r. subst ext r. unfold sanitize_filename.
  pose proof (splitext_app (sanitize_chars filename)) as Happ.
  apply (f_equal String.length) in Happ. rewrite length_append in Happ.
  destruct (truthy filename) eqn:Hf; simpl.
  2:{ destruct filename; [|done]. split; [|vm_compute; lia].
      intros _. split; [vm_compute; lia|]. vm_compute. lia. }
  destruct (Nat.ltb_spec 255 (String.length (sanitize_chars filename))) as [Hlong|Hshort].
  - destruct (limit_length_length _ Hlong) as (Heq & Hle & Hgt). split; [|done].
    intros Hext. split; [rewrite Hle by done; lia|]. intros _.
    eexists. split; [exact Heq|by apply Hle].
  - assert (Hid : limit_length (sanitize_chars filename) = sanitize_chars filename).
    { unfold limit_length.
      by destruct (Nat.ltb_spec 255 (String.length (sanitize_chars filename))); [lia|]. }
    rewrite Hid. split; [|lia]. intros _. split; [done|lia].
Qed.

Lemma sanitize_filename_limit_witness :
  255 < String.length
          (sanitize_filename ("a." +:+ string_of_list_ascii (replicate 300 "b"%char))).
Proof.
  apply (proj2 (sanitize_filename_limit
                  ("a." +:+ string_of_list_ascii (replicate 300 "b"%char)))).
  vm_compute. lia.
Defined.

End SanitizeFacts.

(** ** The configuration *)

Module ConfigFacts.
Import Config ConfigSpec.

Section config.
Context {V : Type}.
Implicit Types (self : ConfigManager V) (file : option (gmap string V)).

Lemma covers_union_r (defaults c : gmap string V) : covers defaults (c ∪ defaults).
Proof.
  intros key [v Hv]. rewrite lookup_union. rewrite Hv.
  destruct (c !! key); simpl; eauto.
Qed.

Lemma covers_union_l (defaults c u : gmap string V) :
  covers defaults c -> covers defaults (u ∪ c).
Proof.
  intros Hc key Hk. destruct (Hc key Hk) as [v Hv]. rewrite lookup_union, Hv.
  destruct (u !! key); simpl; eauto.
Qed.

Lemma covers_insert (defaults c : gmap string V) key value :
  covers defaults c -> covers defaults (<[key := value]> c).
Proof.
  intros Hc k Hk. destruct (decide (key = k)) as [->|Hne].
  - rewrite lookup_insert_eq. eauto.
  - rewrite lookup_insert_ne by done. by apply Hc.
Qed.

Lemma covers_union_eq (defaults c : gmap string V) :
  covers defaults c -> c ∪ defaults = c.
Proof.
  intros Hc. apply map_eq. intros key. rewrite lookup_union.
  destruct (c !! key) as [v|] eqn:Hv; simpl.
  - by destruct (defaults !! key).
  - destruct (defaults !! key) as [d|] eqn:Hd; [|done].
    destruct (Hc key) as [v' Hv']; [eauto|]. congruence.
Qed.

Lemma load_config_covers file self : covers (default_config self) (load_config file self).
Proof.
  unfold load_config. destruct file as [loaded|]; [apply covers_union_r|].
  by intros key.
Qed.

(** What holds of a manager however it was used. *)
Lemma cfg_run_inv file defaults (ops : list (CfgOp V)) :
  default_config (cfg_run file defaults ops) = defaults
  /\ (forall c, _config (cfg_run file defaults ops) = Some c -> covers defaults c)
  /\ covers defaults (config file (cfg_run file defaults ops)).1.
Proof.
  assert (H : default_config (cfg_run file defaults ops) = defaults
              /\ (forall c, _config (cfg_run file defaults ops) = Some c ->
                    covers defaults c)).
  { unfold cfg_run. induction ops as [|o ops IH] using rev_ind; [done|].
    rewrite foldl_app. simpl.
    set (self := foldl (cfg_step file) (new_ConfigManager defaults) ops) in *.
    destruct IH as [Hd Hc].
    assert (Hcfg : covers defaults (config file self).1
                   /\ default_config (config file self).2 = defaults).
    { unfold config. destruct (_config self) as [c|] eqn:Hs; simpl.
      - split; [by apply Hc|done].
      - split; [|done]. pose proof (load_config_covers file self) as Hl.
        by rewrite Hd in Hl. }
    destruct Hcfg as [Hcov Hd'].
    destruct o as [|key value|updates|]; simpl.
    - split; [done|]. unfold config in *. destruct (_config self) as [c|] eqn:Hs; simpl.
      + intros c' Hc'. apply Hc. by rewrite Hs in Hc'.
      + intros c' [= <-]. exact Hcov.
    - unfold set. destruct (config file self) as [c self']. simpl in *.
      split; [done|]. intros c' [= <-]. by apply covers_insert.
    - unfold update. destruct (config file self) as [c self']. simpl in *.
      split; [done|]. intros c' [= <-]. by apply covers_union_l.
    - split; [done|]. intros c' [= <-]. rewrite Hd. by intros key. }
  destruct H as [Hd Hc]. split; [done|]. split; [done|].
  unfold config. destruct (_config (cfg_run file defaults ops)) as [c|] eqn:Hs; simpl.
  - by apply Hc.
  - pose proof (load_config_covers file (cfg_run file defaults ops)) as Hl.
    by rewrite Hd in Hl.
Qed.

End config.

(** X16. What is set is what is read: after [set key value], [get key]
    answers [value] whatever default the caller passes, reading changes
    nothing, and every other key reads as it did before the [set]. *)
Theorem get_after_set {V : Type} (file : option (gmap string V))
    (self : ConfigManager V) (key : string) (value default : V) :
  get key default file (set key value file self) = (value, set key value file self)
  /\ (forall key', key' <> key ->
        (get key' default file (set key value file self)).1
        = (get key' default file self).1).
Proof.
  unfold get, set, config.
  destruct (_config self) as [c|] eqn:Hs; simpl.
  - rewrite lookup_insert_eq. split; [done|]. intros key' Hne.
    by rewrite lookup_insert_ne.
  - rewrite lookup_insert_eq. split; [done|]. intros key' Hne.
    by rewrite lookup_insert_ne.
Qed.

(** X17. Where a value comes from.  The first read of a new manager answers
    the value of the file when the file is a dictionary with that key, else
    the value of [default_config], and the caller's default only for a key
    in neither.  However the manager was used since, a key of
    [default_config] is in the configuration: for it [get] never answers the
    caller's default, and [default_config] itself is never changed. *)
Theorem get_sources {V : Type} (file : option (gmap string V))
    (defaults : gmap string V) (ops : list (CfgOp V)) (key : string) (default : V) :
  (get key default file (new_ConfigManager defaults)).1
  = match file ≫= (fun loaded => loaded !! key) with
    | Some v => v
    | None => from_option (fun v => v) default (defaults !! key)
    end
  /\ default_config (cfg_run file defaults ops) = defaults
  /\ (is_Some (defaults !! key) ->
      exists v, (config file (cfg_run file defaults ops)).1 !! key = Some v
        /\ forall default', (get key default' file (cfg_run file defaults ops)).1 = v).
Proof.
  split_and!.
  - unfold get, config, load_config. simpl. destruct file as [loaded|]; simpl; [|done].
    rewrite lookup_union. destruct (loaded !! key); simpl; [by destruct (defaults !! key)|].
    by destruct (defaults !! key).
  - apply cfg_run_inv.
  - intros Hk. destruct (cfg_run_inv file defaults ops) as (_ & _ & Hcov).
    destruct (Hcov key Hk) as [v Hv]. exists v. split; [done|].
    intros default'. unfold get.
    destruct (config file (cfg_run file defaults ops)) as [c self']. simpl in *.
    by rewrite Hv.
Qed.

(** X18. Saving and loading again loses nothing: however a manager was
    used, a new manager with the same defaults that loads the file it saved
    has the configuration the saving manager has. *)
Theorem save_then_load {V : Type} (file : option (gmap string V))
    (defaults : gmap string V) (ops : list (CfgOp V)) :
  let self := cfg_run file defaults ops in
  let saved := save_config self in
  (config saved (new_ConfigManager defaults)).1 = (config saved self).1.
Proof.
  intros self saved. subst saved.
  destruct (cfg_run_inv file defaults ops) as (Hd & Hc & _). fold self in Hd, Hc.
  unfold save_config, config, load_config. simpl.
  destruct (_config self) as [c|] eqn:Hs; simpl.
  - apply covers_union_eq. by apply Hc.
  - by rewrite Hd.
Qed.

End ConfigFacts.

(** ** The rows of the file list and the handlers that read them *)

Module RowsFacts.
Import DataModels Path MainWindow Rows Observe ObserveMore BatchSpec.
Import BatchShapeFacts SanitizeFacts.

Lemma str_bool_True b : String.eqb (str_bool b) "True" = b.
Proof. by destruct b. Qed.

Lemma row_values_columns fmt f :
  length (row_values fmt f) = 8
  /\ column (row_values fmt f) 4 = id f
  /\ column (row_values fmt f) 5 = str_bool (is_folder f)
  /\ column (row_values fmt f) 6 = title f.
Proof. done. Qed.

(** The tree answers, for the identifier of the [n]-th row, that row; and the
    empty tuple for an identifier of no row. *)
Lemma tree_of_iid iid k rows n :
  Inj (=) (=) iid -> tree_of iid k rows (iid (k + n)) = default [] (rows !! n).
Proof.
  intros Hinj. revert k n. induction rows as [|v rows IH]; intros k n; [done|].
  simpl. destruct n as [|n].
  - rewrite Nat.add_0_r, String.eqb_refl. done.
  - destruct (String.eqb_spec (iid k) (iid (k + S n))) as [Heq|_].
    + apply Hinj in Heq. lia.
    + replace (k + S n) with (S k + n) by lia. apply IH.
Qed.

Lemma tree_of_files fmt iid files n :
  Inj (=) (=) iid ->
  tree_of iid 0 (populate_file_list fmt files).1.1 (iid n)
  = from_option (row_values fmt) [] (files !! n).
Proof.
  intros Hinj. rewrite (tree_of_iid iid 0 _ n Hinj). simpl.
  rewrite list_lookup_fmap. by destruct (files !! n).
Qed.

Lemma count_text_not_empty (n : nat) (s : string) :
  5 < String.length s -> pretty n +:+ s <> "Empty".
Proof.
  intros Hs Heq. apply (f_equal String.length) in Heq.
  rewrite length_append in Heq. simpl in Heq. lia.
Qed.

Lemma filter_length_le {A} (p : A -> bool) l : length (List.filter p l) <= length l.
Proof. induction l as [|x l IH]; simpl; [done|]. destruct (p x); simpl; lia. Qed.

(** X19. After [_populate_file_list] the tree has one row of eight columns
    per item, in the order of the items; row [n] carries the id of item [n]
    in column 4 and its title in column 6; the count label reads [Empty]
    exactly when there is no item. *)
Theorem populate_file_list_rows (fmt : Formats) (files : list FileItem) :
  let '(rows, count, status) := populate_file_list fmt files in
  length rows = length files
  /\ (forall n f, files !! n = Some f ->
        exists values, rows !! n = Some values
          /\ length values = 8
          /\ column values 4 = id f /\ column values 6 = title f
          /\ (String.eqb (column values 5) "True" = is_folder f))
  /\ (count = "Empty" <-> files = []).
Proof.
  unfold populate_file_list. split_and!.
  - by rewrite length_map.
  - intros n f Hf. exists (row_values fmt f). rewrite list_lookup_fmap, Hf.
    split_and!; try done. apply str_bool_True.
  - unfold count_text.
    pose proof (filter_length_le is_folder files) as Hle.
    destruct (Nat.ltb_spec 0 (length (List.filter is_folder files))) as [Hfo|Hfo];
      destruct (Nat.ltb_spec 0 (length files - length (List.filter is_folder files)))
        as [Hfi|Hfi]; simpl.
    + split; [|intros ->; simpl in *; lia].
      intros H. exfalso. revert H. apply count_text_not_empty.
      rewrite !length_append. simpl. lia.
    + split; [|intros ->; simpl in *; lia].
      intros H. exfalso. revert H. apply count_text_not_empty. simpl. lia.
    + split; [|intros ->; simpl in *; lia].
      intros H. exfalso. revert H. apply count_text_not_empty. simpl. lia.
    + split; [intros _|done]. destruct files; [done|]. simpl in *. lia.
Qed.

(** X20. A double click on a row of the populated tree opens the item the
    row was made from: a folder is entered, with the item's id and title; a
    file starts the download of the selection; a row identifier the tree
    does not have does nothing.  Only the first selected row counts. *)
Theorem double_click_opens_item (fmt : Formats) (iid : nat -> string)
    (files : list FileItem) (n : nat) (others : list string) :
  Inj (=) (=) iid ->
  let tree := tree_of iid 0 (populate_file_list fmt files).1.1 in
  on_item_double_click tree (iid n :: others)
  = match files !! n with
    | Some f => if is_folder f then NavigateTo (id f) (title f) else DownloadSelected
    | None => NoAction
    end.
Proof.
  intros Hinj tree. subst tree. unfold on_item_double_click.
  rewrite tree_of_files by done.
  destruct (files !! n) as [f|]; [|done]. simpl.
  destruct (row_values_columns fmt f) as (_ & -> & -> & ->).
  by rewrite str_bool_True.
Qed.

Lemma iid_inj : Inj (=) (=) (fun n : nat => "I" +:+ pretty n).
Proof. intros n m H. apply String.app_inj in H. by apply pretty_nat_inj in H. Qed.

Lemma double_click_opens_item_witness :
  let folder := mkFileItem "7" "docs" 0 "" Drive.folder_mime true "root" in
  let fmt := mkFormats (fun _ => "1 KB") (fun d => d) (fun m => m) in
  let tree := tree_of (fun n => "I" +:+ pretty n) 0
                (populate_file_list fmt [folder]).1.1 in
  on_item_double_click tree ["I0"] = NavigateTo "7" "docs".
Proof.
  intros folder fmt tree.
  exact (double_click_opens_item fmt (fun n => "I" +:+ pretty n) [folder] 0 [] iid_inj).
Defined.

Lemma downloadable_row fmt f : downloadable (row_values fmt f) = negb (is_folder f).
Proof.
  unfold downloadable. destruct (row_values_columns fmt f) as (-> & _ & -> & _).
  by rewrite str_bool_True.
Qed.

(** The rows kept for a download and the calls made for them. *)
Lemma downloads_of_selection fmt (iid : nat -> string) (files : list FileItem)
    (sel : list nat) save_path (tree : string -> list string) :
  (forall n, tree (iid n) = from_option (row_values fmt) [] (files !! n)) ->
  let kept := List.filter (fun item => downloadable (tree item)) (map iid sel) in
  let wanted :=
    List.filter (fun f => negb (is_folder f)) (omap (fun n => files !! n) sel) in
  length kept = length wanted
  /\ map (action (download_batch tree save_path))
       (attemptable (download_batch tree save_path) kept)
     = map (fun f => DownloadFile (id f) (join save_path (title f))) wanted.
Proof.
  intros Htree kept wanted. subst kept wanted. unfold BatchSpec.attemptable.
  set (P := fun item => downloadable (tree item)).
  set (H := has_row (download_batch tree save_path)).
  set (A := action (download_batch tree save_path)).
  set (D := fun f => DownloadFile (id f) (join save_path (title f))).
  assert (HP : forall n, P (iid n)
                 = from_option (fun f => negb (is_folder f)) false (files !! n)).
  { intros n. unfold P. rewrite Htree. destruct (files !! n) as [f|]; [|done].
    apply downloadable_row. }
  assert (HH : forall n f, files !! n = Some f -> H (iid n) = true).
  { intros n f Hf. unfold H. simpl. by rewrite Htree, Hf. }
  assert (HA : forall n f, files !! n = Some f -> A (iid n) = D f).
  { intros n f Hf. unfold A, D. simpl. rewrite Htree, Hf. simpl.
    by destruct (row_values_columns fmt f) as (_ & -> & _ & ->). }
  clearbody P H A D.
  induction sel as [|n sel [IHl IHm]]; [done|].
  simpl. rewrite HP. destruct (files !! n) as [f|] eqn:Hf; simpl; [|done].
  destruct (is_folder f); simpl; [done|].
  rewrite (HH n f Hf). simpl. rewrite (HA n f Hf), IHl, IHm. done.
Qed.

Lemma deletions_of_selection fmt (iid : nat -> string) (files : list FileItem)
    (sel : list nat) (tree : string -> list string) :
  (forall n, tree (iid n) = from_option (row_values fmt) [] (files !! n)) ->
  map (action (delete_batch tree)) (attemptable (delete_batch tree) (map iid sel))
  = map (fun f => DeleteFile (id f)) (omap (fun n => files !! n) sel).
Proof.
  intros Htree. unfold BatchSpec.attemptable.
  set (H := has_row (delete_batch tree)).
  set (A := action (delete_batch tree)).
  assert (HH : forall n, H (iid n) = bool_decide (is_Some (files !! n))).
  { intros n. unfold H. simpl. rewrite Htree. by destruct (files !! n). }
  assert (HA : forall n f, files !! n = Some f -> A (iid n) = DeleteFile (id f)).
  { intros n f Hf. unfold A. simpl. rewrite Htree, Hf. simpl.
    by destruct (row_values_columns fmt f) as (_ & -> & _ & _). }
  clearbody H A.
  induction sel as [|n sel IH]; [done|].
  simpl. rewrite HH. destruct (files !! n) as [f|] eqn:Hf; simpl; [|done].
  by rewrite (HA n f Hf), IH.
Qed.

(** X21. Downloading a selection of the populated tree.  The handler starts
    a download exactly when the selection holds a file and a directory was
    chosen; the download then has a call for each selected file, in the
    order of the selection, by the id of the item and with, as the path to
    save to, what [os.path.join] makes of the chosen directory and the
    item's title; selected folders are left out.  That path need not be
    inside the chosen directory: for a title that starts with a slash it is
    the title itself.  In every world the calls the thread makes are the
    first of these, in order. *)
Theorem download_selection (fmt : Formats) (iid : nat -> string)
    (files : list FileItem) (sel : list nat) (chosen : string) :
  Inj (=) (=) iid ->
  let tree := tree_of iid 0 (populate_file_list fmt files).1.1 in
  let wanted :=
    List.filter (fun f => negb (is_folder f)) (omap (fun n => files !! n) sel) in
  let downloads := map (fun f => DownloadFile (id f) (join chosen (title f))) wanted in
  ((exists items, download_selected tree (map iid sel) chosen = StartDownload items chosen)
   <-> wanted <> [] /\ chosen <> "")
  /\ (forall items save_path,
        download_selected tree (map iid sel) chosen = StartDownload items save_path ->
        save_path = chosen
        /\ map (action (download_batch tree chosen))
             (attemptable (download_batch tree chosen) items) = downloads
        /\ forall w, calls_of (run w (perform_download tree items chosen))
                     `prefix_of` downloads)
  /\ (forall rest, join chosen (String slash rest) = String slash rest).
Proof.
  intros Hinj tree wanted downloads.
  assert (Hjoin : forall rest, join chosen (String slash rest) = String slash rest).
  { intros rest. unfold join. by rewrite Ascii.eqb_refl. }
  refine ((fun H => conj (proj1 H) (conj (proj2 H) Hjoin)) _).
  destruct (downloads_of_selection fmt iid files sel chosen tree
              (fun n => tree_of_files fmt iid files n Hinj)) as [Hlen Hmap].
  fold wanted in Hlen, Hmap. fold downloads in Hmap.
  assert (Hsel : sel = [] -> wanted = []) by (by intros ->).
  unfold download_selected.
  destruct (map iid sel) as [|i0 rest] eqn:Hmapsel.
  { destruct sel; [|done]. rewrite Hsel by done. split.
    - split; [by intros [items [=]]|by intros [[] _]].
    - by intros items save_path [=]. }
  destruct (List.filter (fun item => downloadable (tree item)) (i0 :: rest))
    as [|k0 kept] eqn:Hkept.
  { destruct wanted; [|done]. split.
    - split; [by intros [items [=]]|by intros [[] _]].
    - by intros items save_path [=]. }
  assert (Hw : wanted <> []) by (destruct wanted; [done|done]).
  destruct (truthy chosen) eqn:Hch.
  - apply truthy_true in Hch. split.
    + split; [done|]. intros _. eauto.
    + intros items save_path [= <- <-]. split; [done|]. split; [done|].
      intros w. unfold perform_download.
      destruct (batch_thread_cases (download_batch tree chosen) w (k0 :: kept))
        as (_ & -> & Hp & _).
      by rewrite Hmap in Hp.
  - apply truthy_false in Hch. split.
    + split; [by intros [items [=]]|by intros [_ []]].
    + by intros items save_path [=].
Qed.

Lemma download_selection_witness :
  let file := mkFileItem "9" "a.txt" 3 "" "text/plain" false "root" in
  let folder := mkFileItem "7" "docs" 0 "" Drive.folder_mime true "root" in
  let fmt := mkFormats (fun _ => "1 KB") (fun d => d) (fun m => m) in
  let tree := tree_of (fun n => "I" +:+ pretty n) 0
                (populate_file_list fmt [folder; file]).1.1 in
  download_selected tree ["I0"; "I1"] "/tmp" = StartDownload ["I1"] "/tmp"
  /\ forall w, calls_of (run w (perform_download tree ["I1"] "/tmp"))
               `prefix_of` [DownloadFile "9" "/tmp/a.txt"].
Proof.
  intros file folder fmt tree. split; [reflexivity|].
  apply (proj1 (proj2 (download_selection fmt (fun n => "I" +:+ pretty n)
                         [folder; file] [0; 1] "/tmp" iid_inj)) ["I1"] "/tmp" eq_refl).
Defined.

(** X22. Deleting a selection of the populated tree has a call for every
    selected item, folders included, in the order of the selection and by
    the id of the item; in every world the calls the thread makes are the
    first of these, in order. *)
Theorem deletion_of_selection (fmt : Formats) (iid : nat -> string)
    (files : list FileItem) (sel : list nat) :
  Inj (=) (=) iid ->
  let tree := tree_of iid 0 (populate_file_list fmt files).1.1 in
  let deletions := map (fun f => DeleteFile (id f)) (omap (fun n => files !! n) sel) in
  map (action (delete_batch tree)) (attemptable (delete_batch tree) (map iid sel))
  = deletions
  /\ forall w, calls_of (run w (perform_deletion tree (map iid sel)))
               `prefix_of` deletions.
Proof.
  intros Hinj tree deletions.
  assert (Hmap : map (action (delete_batch tree))
                   (attemptable (delete_batch tree) (map iid sel)) = deletions).
  { apply (deletions_of_selection fmt iid files sel tree).
    intros n. by apply tree_of_files. }
  split; [done|]. intros w. unfold perform_deletion.
  destruct (batch_thread_cases (delete_batch tree) w (map iid sel)) as (_ & -> & Hp & _).
  by rewrite Hmap in Hp.
Qed.

Lemma deletion_of_selection_witness :
  let file := mkFileItem "9" "a.txt" 3 "" "text/plain" false "root" in
  let folder := mkFileItem "7" "docs" 0 "" Drive.folder_mime true "root" in
  let fmt := mkFormats (fun _ => "1 KB") (fun d => d) (fun m => m) in
  let tree := tree_of (fun n => "I" +:+ pretty n) 0
                (populate_file_list fmt [folder; file]).1.1 in
  map (action (delete_batch tree)) (attemptable (delete_batch tree) ["I1"; "I0"])
  = [DeleteFile "9"; DeleteFile "7"].
Proof.
  intros file folder fmt tree.
  exact (proj1 (deletion_of_selection fmt (fun n => "I" +:+ pretty n) [folder; file]
                  [1; 0] iid_inj)).
Defined.

End RowsFacts.
